(** * LZ77 golden model: compressor, stream decompressor and token packing

    A shallow embedding of [scripts/lz77_gen_vectors.py].

    Python integers are [Z]; a [bytes] object is a [list byte]; a Python list
    of integers is a [list Z]; a [str] is a [string].  A token is the triple
    [(distance, length, literal)] of Python integers.  Exceptions are the
    constructors of [error]; a function that may raise returns a [result].
    The files [write_mem_files] writes are a map from paths to contents, and
    the main block runs on the files and the lines printed. *)

From Stdlib.Strings Require Import Ascii String.
From Stdlib Require Import DecimalString.
From Stdlib Require Import ZArith List Bool Lia Sorted.
From Stdlib.Strings Require Import Byte.
Import ListNotations.
Open Scope Z_scope.

(** ** Python primitives *)

Module Py.

(** [len(l)] *)
Definition len {A : Type} (l : list A) : Z := Z.of_nat (length l).

(** [l[i]]: a negative index counts from the end; [None] is IndexError. *)
Definition index {A : Type} (l : list A) (i : Z) : option A :=
  let i' := if i <? 0 then i + len l else i in
  if (i' <? 0) || (len l <=? i') then None else nth_error l (Z.to_nat i').

(** [l[s:]]: a negative start counts from the end, and the start is
    clamped to [0 .. len(l)]. *)
Definition slice_from {A : Type} (l : list A) (s : Z) : list A :=
  let s' := if s <? 0 then Z.max 0 (len l + s) else Z.min s (len l) in
  skipn (Z.to_nat s') l.

(** [range(a, b)] *)
Definition range (a b : Z) : list Z :=
  map (fun k => a + Z.of_nat k) (seq 0 (Z.to_nat (b - a))).

(** [data[k]] for a [bytes] object, at an index the caller keeps in
    bounds. *)
Definition byte_at (data : list byte) (k : Z) : byte :=
  nth (Z.to_nat k) data x00.

(** The integer value of a byte. *)
Definition int_of_byte (b : byte) : Z := Z.of_N (Byte.to_N b).

(** One element of [bytes(l)]: defined on [range(0, 256)] only. *)
Definition byte_of_int (z : Z) : option byte :=
  if z <? 0 then None else Byte.of_N (Z.to_N z).

(** [bytes(l)]; [None] is the ValueError of an element out of range. *)
Fixpoint bytes (l : list Z) : option (list byte) :=
  match l with
  | [] => Some []
  | z :: l' =>
      match byte_of_int z, bytes l' with
      | Some b, Some bs => Some (b :: bs)
      | _, _ => None
      end
  end.

End Py.

(** ** Tokens, errors *)

Definition Token : Type := (Z * Z * Z)%type.

Definition tok_distance (tok : Token) : Z := fst (fst tok).
Definition tok_length (tok : Token) : Z := snd (fst tok).
Definition tok_literal (tok : Token) : Z := snd tok.

Inductive error : Type :=
| InvalidToken        (* ValueError("Invalid token: distance=0 with length>0") *)
| InvalidBackRef (distance hist_len : Z)
                      (* ValueError("Invalid back-reference: dist=.., hist_len=..") *)
| IndexError          (* hist[start + k]: list index out of range *)
| BytesRange          (* bytes(out_full): an element outside range(0, 256) *)
| DistTooWide (dist : Z)   (* ValueError("dist too wide: ..") *)
| LenTooWide (length : Z)  (* ValueError("len too wide: ..") *)
| LitInvalid (lit : Z)     (* ValueError("lit invalid: ..") *)
| NegativeShift.      (* ValueError("negative shift count") *)

Inductive result (A : Type) : Type :=
| Ok (a : A)
| Raise (e : error).
Arguments Ok {A} a.
Arguments Raise {A} e.

Definition bind {A B : Type} (r : result A) (k : A -> result B) : result B :=
  match r with
  | Ok a => k a
  | Raise e => Raise e
  end.

Notation "x <- r ;; k" := (bind r (fun x => k))
  (at level 61, r at next level, right associativity).

(** The two errors the decoder raises on purpose (the specification's
    InvalidBackReference). *)
Definition is_invalid_back_reference (e : error) : bool :=
  match e with
  | InvalidToken | InvalidBackRef _ _ => true
  | _ => false
  end.

(** The three errors the packer raises on purpose (the specification's
    FieldOverflow). *)
Definition is_field_overflow (e : error) : bool :=
  match e with
  | DistTooWide _ | LenTooWide _ | LitInvalid _ => true
  | _ => false
  end.

(** ** The decoder: [decompress_stream] *)

Module Decoder.

(** The two local lists of [decompress_stream]. *)
Record state : Type := mkState { out_full : list Z; hist : list Z }.

Definition init : state := mkState [] [].

(** [out_full.append(b); hist.append(b)] *)
Definition append (b : Z) (st : state) : state :=
  mkState (out_full st ++ [b]) (hist st ++ [b]).

(** [if len(hist) > window_size: hist = hist[-window_size:]] *)
Definition truncate (window_size : Z) (st : state) : state :=
  if Py.len (hist st) >? window_size
  then mkState (out_full st) (Py.slice_from (hist st) (- window_size))
  else st.

(** The body of [for k in range(length)], run for the [n] values of [k]
    that remain. *)
Fixpoint copy_loop (window_size start : Z) (n : nat) (k : Z) (st : state)
  : result state :=
  match n with
  | O => Ok st
  | S n' =>
      match Py.index (hist st) (start + k) with
      | None => Raise IndexError
      | Some b =>
          copy_loop window_size start n' (k + 1)
                    (truncate window_size (append b st))
      end
  end.

(** The branch [length != 0] of the loop body. *)
Definition back_reference (window_size : Z) (tok : Token) (st : state)
  : result state :=
  let '(distance, length, literal) := tok in
  if distance =? 0 then Raise InvalidToken
  else if distance >? Py.len (hist st)
       then Raise (InvalidBackRef distance (Py.len (hist st)))
       else
         let start := Py.len (hist st) - distance in
         st' <- copy_loop window_size start (Z.to_nat length) 0 st ;;
         Ok (append literal st').

(** One iteration of [for distance, length, literal in tokens]. *)
Definition step (window_size : Z) (st : state) (tok : Token) : result state :=
  let '(distance, length, literal) := tok in
  st' <- (if length =? 0 then Ok (append literal st)
          else back_reference window_size tok st) ;;
  Ok (truncate window_size st').

(** The whole [for] loop, from a given state. *)
Fixpoint run (window_size : Z) (tokens : list Token) (st : state)
  : result state :=
  match tokens with
  | [] => Ok st
  | tok :: rest =>
      st' <- step window_size st tok ;;
      run window_size rest st'
  end.

Definition decompress_stream (tokens : list Token) (window_size : Z)
  : result (list byte) :=
  st <- run window_size tokens init ;;
  match Py.bytes (out_full st) with
  | Some bs => Ok bs
  | None => Raise BytesRange
  end.

(** *** Observation points

    The same loop, which also lists the states at the points where the
    history is consulted (the validation of a back-reference and every read
    [hist[start + k]]) and the state after each token. *)

Fixpoint copy_loop_obs (window_size start : Z) (n : nat) (k : Z) (st : state)
  : list state * result state :=
  match n with
  | O => ([], Ok st)
  | S n' =>
      match Py.index (hist st) (start + k) with
      | None => ([st], Raise IndexError)
      | Some b =>
          let '(obs, r) :=
            copy_loop_obs window_size start n' (k + 1)
                          (truncate window_size (append b st)) in
          (st :: obs, r)
      end
  end.

Definition back_reference_obs (window_size : Z) (tok : Token) (st : state)
  : list state * result state :=
  let '(distance, length, literal) := tok in
  if distance =? 0 then ([st], Raise InvalidToken)
  else if distance >? Py.len (hist st)
       then ([st], Raise (InvalidBackRef distance (Py.len (hist st))))
       else
         let start := Py.len (hist st) - distance in
         let '(obs, r) :=
           copy_loop_obs window_size start (Z.to_nat length) 0 st in
         (st :: obs, st' <- r ;; Ok (append literal st')).

Definition step_obs (window_size : Z) (st : state) (tok : Token)
  : list state * result state :=
  let '(distance, length, literal) := tok in
  let '(obs, r) :=
    if length =? 0 then ([], Ok (append literal st))
    else back_reference_obs window_size tok st in
  match r with
  | Ok st' => (obs ++ [truncate window_size st'], Ok (truncate window_size st'))
  | Raise e => (obs, Raise e)
  end.

Fixpoint run_obs (window_size : Z) (tokens : list Token) (st : state)
  : list state * result state :=
  match tokens with
  | [] => ([], Ok st)
  | tok :: rest =>
      let '(obs, r) := step_obs window_size st tok in
      match r with
      | Ok st' =>
          let '(obs', r') := run_obs window_size rest st' in
          (obs ++ obs', r')
      | Raise e => (obs, Raise e)
      end
  end.

(** The last [k] elements of a list. *)
Definition lastn {A : Type} (k : nat) (l : list A) : list A :=
  skipn (length l - k) l.

(** The copy on a history that grows and is never cut: [cnt] reads from
    position [pos] on, each byte read being appended at once. *)
Fixpoint grow_copy (h : list Z) (pos cnt : nat) : option (list Z) :=
  match cnt with
  | O => Some h
  | S cnt' =>
      match nth_error h pos with
      | Some b => grow_copy (h ++ [b]) (S pos) cnt'
      | None => None
      end
  end.

(** The history is the tail of the output, [window_size] bytes at most. *)
Definition windowed (window_size : Z) (st : state) : Prop :=
  hist st = lastn (Z.to_nat window_size) (out_full st).

(** The output of [s2] is the output of [s1] with bytes added at its end. *)
Definition ext (s1 s2 : state) : Prop :=
  exists added, out_full s2 = out_full s1 ++ added.

(** Along a list of states, the output only ever gains bytes at its end. *)
Fixpoint grows (prev : state) (obs : list state) : Prop :=
  match obs with
  | [] => True
  | st :: obs' => ext prev st /\ grows st obs'
  end.

(** What an observed run from a windowed state [st] guarantees: the plain
    result, windowed observations, a growing output, and a windowed final
    state that extends the last observation. *)
Definition sound (w : Z) (st : state) (p : list state * result state)
           (plain : result state) : Prop :=
  snd p = plain
  /\ Forall (windowed w) (fst p)
  /\ grows st (fst p)
  /\ forall st', snd p = Ok st' -> windowed w st' /\ ext (last (fst p) st) st'.

(** The bytes a state holds all come from [src]; the history holds nothing
    the output does not. *)
Definition from (src : list Z) (st : state) : Prop :=
  incl (out_full st) src /\ incl (hist st) (out_full st).

(** The validation the specification expects of the decoder: a token with
    a distance above [window_size] or a length above [max_length] makes
    the decoding fail. *)
Definition validates_bounds (window_size max_length : Z) : Prop :=
  forall tokens distance length literal,
    In (distance, length, literal) tokens ->
    distance > window_size \/ length > max_length ->
    exists e, decompress_stream tokens window_size = Raise e.

(** The invalid back-reference of the specification, on a token met in
    state [st]: a positive length with a zero distance or a distance beyond
    the history. *)
Definition violates (st : state) (tok : Token) : bool :=
  let '(distance, length, literal) := tok in
  (length >? 0) && ((distance =? 0) || (distance >? Py.len (hist st))).

End Decoder.

(** ** Token packing: [pack_token_word] *)

Module Codec.

(** [a << b]; a negative shift count raises. *)
Definition shl (a b : Z) : result Z :=
  if b <? 0 then Raise NegativeShift else Ok (Z.shiftl a b).

(** The closure [pack_token_word] of [write_mem_files]; [dist_width],
    [len_width] and [token_w] are the enclosing function's arguments. *)
Definition pack_token_word (dist_width len_width token_w : Z)
           (dist length lit : Z) : result Z :=
  dmax <- shl 1 dist_width ;;
  if dist >=? dmax then Raise (DistTooWide dist) else
  lmax <- shl 1 len_width ;;
  if length >=? lmax then Raise (LenTooWide length) else
  if (lit <? 0) || (lit >? 255) then Raise (LitInvalid lit) else
  d <- shl dist (len_width + 8) ;;
  l <- shl length 8 ;;
  let word := Z.lor (Z.lor d l) lit in
  m <- shl 1 token_w ;;
  Ok (Z.land word (m - 1)).

(** The word of the specification: the three fields side by side, cut to
    [token_width] bits. *)
Definition layout_word (dist_width len_width dist length lit : Z) : Z :=
  Z.land (Z.lor (Z.lor (Z.shiftl dist (len_width + 8)) (Z.shiftl length 8)) lit)
         (2 ^ (dist_width + len_width + 8) - 1).

End Codec.

(** ** The encoder: [compress] *)

Module Encoder.

Section Compress.

Variable data : list byte.
Variables window_size max_length : Z.

(** [n = len(data)] *)
Definition n : Z := Py.len data.

(** The condition of the inner [while]. *)
Definition extends (i j match_len : Z) : bool :=
  (i + match_len <? n)
  && (j + match_len <? i)
  && (match_len <? max_length)
  && Byte.eqb (Py.byte_at data (j + match_len))
              (Py.byte_at data (i + match_len)).

(** The inner [while]; [None] when the fuel runs out. *)
Fixpoint match_loop (fuel : nat) (i j match_len : Z) : option Z :=
  if extends i j match_len then
    match fuel with
    | O => None
    | S fuel' => match_loop fuel' i j (match_len + 1)
    end
  else Some match_len.

(** [match_len] after the inner [while], started at [0].  The condition
    [j + match_len < i] fails after [i - j] rounds at the latest. *)
Definition match_length (i j : Z) : option Z :=
  match_loop (Z.to_nat (i - j)) i j 0.

(** The body of [for j in range(start, i)] on [(best_len, best_dist)]. *)
Definition scan_body (i : Z) (best : Z * Z) (j : Z) : option (Z * Z) :=
  let '(best_len, best_dist) := best in
  let dist := i - j in
  if (dist <=? 0) || (dist >? window_size) then Some best
  else
    match match_length i j with
    | None => None
    | Some match_len =>
        if (match_len >? best_len) && (i + match_len <? n)
        then Some (match_len, dist)
        else Some best
    end.

Fixpoint scan (i : Z) (js : list Z) (best : Z * Z) : option (Z * Z) :=
  match js with
  | [] => Some best
  | j :: js' =>
      match scan_body i best j with
      | None => None
      | Some best' => scan i js' best'
      end
  end.

(** [start = max(0, i - window_size)] *)
Definition start (i : Z) : Z := Z.max 0 (i - window_size).

(** [(best_len, best_dist)] after the [for] loop at position [i]. *)
Definition find_best (i : Z) : option (Z * Z) :=
  scan i (Py.range (start i) i) (0, 0).

(** The token appended at position [i], with the next position. *)
Definition emit (i : Z) : option (Token * Z) :=
  match find_best i with
  | None => None
  | Some (best_len, best_dist) =>
      if best_len >? 0
      then Some ((best_dist, best_len,
                  Py.int_of_byte (Py.byte_at data (i + best_len))),
                 i + (best_len + 1))
      else Some ((0, 0, Py.int_of_byte (Py.byte_at data i)), i + 1)
  end.

(** The outer [while i < n]; the tokens appended from position [i] on,
    [None] when the fuel runs out. *)
Fixpoint compress_loop (fuel : nat) (i : Z) : option (list Token) :=
  if i <? n then
    match fuel with
    | O => None
    | S fuel' =>
        match emit i with
        | None => None
        | Some (tok, i') =>
            match compress_loop fuel' i' with
            | None => None
            | Some toks => Some (tok :: toks)
            end
        end
    end
  else Some [].

(** Every round consumes a byte at least, so [len(data)] rounds are
    enough. *)
Definition compress : option (list Token) :=
  compress_loop (length data) 0.

(** A start [j] whose match the [for] body would take over an empty
    best: positive length, and a byte left after it for the literal. *)
Definition eligible (i j : Z) : option Z :=
  match match_length i j with
  | Some match_len =>
      if (match_len >? 0) && (i + match_len <? n)
      then Some match_len else None
  | None => None
  end.

(** A start [j] the scan at position [i] can take: within the window,
    with an eligible match of length [match_len]. *)
Definition candidate (i j match_len : Z) : Prop :=
  0 < i - j <= window_size /\ eligible i j = Some match_len.

End Compress.

(** Tie-breaking, as the specification states it: among the candidates of
    maximal length at position [i], the token emitted carries the smallest
    distance. *)
Definition smallest_distance_wins (data : list byte)
           (window_size max_length i : Z) : Prop :=
  forall tok i' j match_len,
    emit data window_size max_length i = Some (tok, i') ->
    start window_size i <= j < i ->
    candidate data window_size max_length i j match_len ->
    (forall j' ml', start window_size i <= j' < i ->
       candidate data window_size max_length i j' ml' -> ml' <= match_len) ->
    fst (fst tok) <= i - j.

(** Token validity, as the specification states it. *)
Definition valid_token (window_size max_length : Z) (tok : Token) : Prop :=
  (tok_distance tok = 0 <-> tok_length tok = 0)
  /\ tok_distance tok <= window_size
  /\ tok_length tok <= max_length.

End Encoder.

(** The input bytes a token sequence accounts for: the copied bytes and
    the literal of every token. *)
Fixpoint consumed (tokens : list Token) : Z :=
  match tokens with
  | [] => 0
  | tok :: rest => tok_length tok + 1 + consumed rest
  end.

(** The bytes a token sequence decodes to: for every token the copied
    bytes ([range(length)] is empty for a negative length) and the
    literal. *)
Fixpoint produced (tokens : list Token) : Z :=
  match tokens with
  | [] => 0
  | tok :: rest => Z.max 0 (tok_length tok) + 1 + produced rest
  end.

(** ** Round trip *)

(** The round trip of the specification: the compressor returns tokens, and
    the decoder turns them back into [data]. *)
Definition round_trip (data : list byte) (window_size max_length : Z) : Prop :=
  exists tokens,
    Encoder.compress data window_size max_length = Some tokens
    /\ Decoder.decompress_stream tokens window_size = Ok data.

(** ** Hexadecimal text: the format specification [0<width>X] *)

Module Hex.

(** The upper-case digit of a value in [0, 16). *)
Definition digit (d : Z) : ascii :=
  ascii_of_nat (Z.to_nat (if d <? 10 then 48 + d else 55 + d)).

(** The digits of [v >= 0], most significant first, with no leading zero.
    A value below [2^(fuel + 4)] needs no more rounds than [fuel]. *)
Fixpoint digits_fuel (fuel : nat) (v : Z) : string :=
  match fuel with
  | O => String (digit v) EmptyString
  | S fuel' =>
      if v <? 16 then String (digit v) EmptyString
      else (digits_fuel fuel' (v / 16) ++ String (digit (v mod 16)) EmptyString)%string
  end.

Definition digits (v : Z) : string := digits_fuel (Z.to_nat (Z.log2 v)) v.

Fixpoint zeros (k : nat) : string :=
  match k with
  | O => EmptyString
  | S k' => String "0"%char (zeros k')
  end.

(** Zero padding on the left, up to [width] characters. *)
Definition pad (width : nat) (s : string) : string :=
  (zeros (width - String.length s) ++ s)%string.

(** [format(v, "0<width>X")]: the sign first, then zeros, then the digits
    of the absolute value. *)
Definition format_0X (width : nat) (v : Z) : string :=
  if v <? 0 then String "-"%char (pad (width - 1) (digits (- v)))
  else pad width (digits v).

(** [f"{v:0{width}X}"] with a computed width: the specification is built
    from the decimal text of [width], and a negative one is not a valid
    format specification ([None] is Python's ValueError). *)
Definition format_nested (width v : Z) : option string :=
  if width <? 0 then None else Some (format_0X (Z.to_nat width) v).

(** The value of an upper-case hexadecimal digit. *)
Definition digit_value (c : ascii) : option Z :=
  let k := Z.of_nat (nat_of_ascii c) in
  if (48 <=? k) && (k <=? 57) then Some (k - 48)
  else if (65 <=? k) && (k <=? 70) then Some (k - 55)
  else None.

(** The number a string of hexadecimal digits denotes, as a reader of the
    files takes it; [None] on any other character. *)
Fixpoint value_from (acc : Z) (s : string) : option Z :=
  match s with
  | EmptyString => Some acc
  | String c s' =>
      match digit_value c with
      | Some d => value_from (acc * 16 + d) s'
      | None => None
      end
  end.

Definition value (s : string) : option Z := value_from 0 s.

(** The character that ends a line. *)
Definition newline : ascii := ascii_of_nat 10.

(** The lines of a text in which every line ends with a newline. *)
Fixpoint lines_from (cur : string) (s : string) : list string :=
  match s with
  | EmptyString => []
  | String c s' =>
      if Ascii.eqb c newline then cur :: lines_from EmptyString s'
      else lines_from (cur ++ String c EmptyString)%string s'
  end.

Definition lines (s : string) : list string := lines_from EmptyString s.

(** No character of the string ends a line. *)
Fixpoint unbroken (s : string) : Prop :=
  match s with
  | EmptyString => True
  | String c s' => c <> newline /\ unbroken s'
  end.

End Hex.

(** ** Writing the vectors: [write_mem_files] *)

(** What stops the script: an exception of the functions above, an
    invalid format specification, the failed assertion of the main block,
    or (in this embedding only) a loop that ran out of fuel. *)
Inductive failure : Type :=
| Raised (e : error)
| FormatSpec
| AssertionFailed
| OutOfFuel.

Module Writer.

(** The files, by path.  Opening a path for writing is taken to succeed;
    it leaves the file empty, and what is written before an exception stays
    in the file when the [with] block closes it. *)
Definition fs : Type := string -> option string.

Definition write_file (path content : string) (files : fs) : fs :=
  fun p => if String.eqb p path then Some content else files p.

(** [hex_token_digits = (token_w + 3) // 4] *)
Definition hex_token_digits (token_w : Z) : Z := (token_w + 3) / 4.

(** [tok] packs to [word]. *)
Definition packs (dist_width len_width token_w : Z) (tok : Token) (word : Z)
  : Prop :=
  Codec.pack_token_word dist_width len_width token_w
    (tok_distance tok) (tok_length tok) (tok_literal tok) = Ok word.

(** The loop over [tokens] inside the first [with]: the text written, and
    the exception that stopped it if any. *)
Fixpoint token_lines (dist_width len_width token_w : Z) (tokens : list Token)
  : string * option failure :=
  match tokens with
  | [] => (EmptyString, None)
  | (d, l, lit) :: rest =>
      match Codec.pack_token_word dist_width len_width token_w d l lit with
      | Raise e => (EmptyString, Some (Raised e))
      | Ok w =>
          match Hex.format_nested (hex_token_digits token_w) w with
          | None => (EmptyString, Some FormatSpec)
          | Some line =>
              let '(text, r) :=
                token_lines dist_width len_width token_w rest in
              ((line ++ String Hex.newline text)%string, r)
          end
      end
  end.

(** The loop over [expected] inside the second [with]. *)
Fixpoint byte_lines (expected : list byte) : string :=
  match expected with
  | [] => EmptyString
  | b :: rest =>
      (Hex.format_0X 2 (Py.int_of_byte b)
       ++ String Hex.newline (byte_lines rest))%string
  end.

(** The two writes inside the third [with]. *)
Definition meta_lines (tokens : list Token) (expected : list byte) : string :=
  ((Hex.format_0X 8 (Py.len tokens) ++ String Hex.newline EmptyString)
   ++ (Hex.format_0X 8 (Py.len expected) ++ String Hex.newline EmptyString))
  %string.

Definition tokens_path (out_dir : string) : string :=
  (out_dir ++ "/tokens.mem")%string.
Definition expected_path (out_dir : string) : string :=
  (out_dir ++ "/expected.mem")%string.
Definition meta_path (out_dir : string) : string :=
  (out_dir ++ "/meta.mem")%string.

Definition write_mem_files (tokens : list Token) (expected : list byte)
           (dist_width len_width token_w : Z) (out_dir : string) (files : fs)
  : fs * option failure :=
  let '(text, r) := token_lines dist_width len_width token_w tokens in
  let files1 := write_file (tokens_path out_dir) text files in
  match r with
  | Some e => (files1, Some e)
  | None =>
      let files2 :=
        write_file (expected_path out_dir) (byte_lines expected) files1 in
      let files3 :=
        write_file (meta_path out_dir) (meta_lines tokens expected) files2 in
      (files3, None)
  end.

End Writer.

(** ** The main block *)

Module Script.

(** The files and the lines printed. *)
Record world : Type := mkWorld { files : Writer.fs; stdout : list string }.

(** [str(n)] for a length. *)
Definition decimal (n : nat) : string :=
  NilEmpty.string_of_uint (Nat.to_uint n).

Definition DIST_WIDTH : Z := 4.
Definition LEN_WIDTH : Z := 4.
Definition TOKEN_W : Z := DIST_WIDTH + LEN_WIDTH + 8.
Definition WINDOW : Z := 16.
Definition MAX_LEN : Z := 15.

(** The main block, for any [input_data] ("change this to any test
    string/bytes you want"), with assertions enabled. *)
Definition main_with (input_data : list byte) (w : world)
  : world * option failure :=
  match Encoder.compress input_data WINDOW MAX_LEN with
  | None => (w, Some OutOfFuel)
  | Some tokens =>
      match Decoder.decompress_stream tokens WINDOW with
      | Raise e => (w, Some (Raised e))
      | Ok reconstructed =>
          if negb (if list_eq_dec Byte.byte_eq_dec reconstructed input_data
                   then true else false)
          then (w, Some AssertionFailed)
          else
            let '(files', r) :=
              Writer.write_mem_files tokens reconstructed
                DIST_WIDTH LEN_WIDTH TOKEN_W "."%string (files w) in
            match r with
            | Some e => (mkWorld files' (stdout w), Some e)
            | None =>
                (mkWorld files'
                   (stdout w
                    ++ ["Generated: tokens.mem, expected.mem, meta.mem"%string;
                        ("NUM_TOKENS = " ++ decimal (length tokens))%string;
                        ("EXP_LEN    = " ++ decimal (length reconstructed))
                        %string]),
                 None)
            end
      end
  end.

(** The main block as shipped. *)
Definition main : world -> world * option failure :=
  main_with ["1"; "0"; "1"; "0"; "A"; "B"; "A"; "B"; "X"]%byte.

End Script.

(** * Token packing *)

Module CodecFacts.
Import Codec.

Lemma shl_nonneg a b : 0 <= b -> shl a b = Ok (Z.shiftl a b).
Proof.
  intros Hb. unfold shl.
  destruct (Z.ltb_spec b 0); [lia | reflexivity].
Qed.

Lemma shl_one b : 0 <= b -> shl 1 b = Ok (2 ^ b).
Proof.
  intros Hb. rewrite shl_nonneg by assumption.
  now rewrite Z.shiftl_1_l.
Qed.

(** What [pack_token_word] does once the widths are not negative. *)
Lemma pack_unfold dw lw tw d l lit :
  0 <= dw -> 0 <= lw -> 0 <= tw ->
  pack_token_word dw lw tw d l lit =
    if d >=? 2 ^ dw then Raise (DistTooWide d)
    else if l >=? 2 ^ lw then Raise (LenTooWide l)
    else if (lit <? 0) || (lit >? 255) then Raise (LitInvalid lit)
    else Ok (Z.land (Z.lor (Z.lor (Z.shiftl d (lw + 8)) (Z.shiftl l 8)) lit)
                    (2 ^ tw - 1)).
Proof.
  intros Hdw Hlw Htw. unfold pack_token_word.
  rewrite (shl_one dw), (shl_one lw), (shl_one tw) by assumption.
  rewrite (shl_nonneg d (lw + 8)), (shl_nonneg l 8) by lia.
  reflexivity.
Qed.

(** A field shifted above [k] bits and a value below [2^k] share no bit. *)
Lemma lor_disjoint hi lo k :
  0 <= k -> 0 <= lo < 2 ^ k -> Z.lor (hi * 2 ^ k) lo = hi * 2 ^ k + lo.
Proof.
  intros Hk Hlo.
  assert (Hz : Z.land (hi * 2 ^ k) lo = 0).
  { apply Z.bits_inj'; intros i Hi. rewrite Z.land_spec, Z.bits_0.
    destruct (Z.ltb_spec i k).
    - rewrite Z.mul_pow2_bits_low by lia. reflexivity.
    - destruct (Z.eq_dec lo 0) as [->|Hne].
      + rewrite Z.bits_0. apply andb_false_r.
      + rewrite (Z.bits_above_log2 lo i), andb_false_r; [reflexivity | lia |].
        apply Z.lt_le_trans with k; [|assumption].
        apply Z.log2_lt_pow2; lia. }
  rewrite <- (Z.lxor_lor _ _ Hz), <- (Z.add_nocarry_lxor _ _ Hz).
  reflexivity.
Qed.

(** Fields that are not negative do not overlap: the word is their
    positional sum, and the mask of [token_width] bits keeps all of it. *)
Lemma layout_word_sum dw lw d l lit :
  0 <= dw -> 0 <= lw ->
  0 <= d < 2 ^ dw -> 0 <= l < 2 ^ lw -> 0 <= lit <= 255 ->
  layout_word dw lw d l lit = d * 2 ^ (lw + 8) + l * 2 ^ 8 + lit.
Proof.
  intros Hdw Hlw Hd Hl Hlit. unfold layout_word.
  rewrite !Z.shiftl_mul_pow2 by lia.
  rewrite <- Z.lor_assoc.
  rewrite (lor_disjoint l lit 8) by lia.
  assert (Hlow : 0 <= l * 2 ^ 8 + lit < 2 ^ (lw + 8)).
  { rewrite Z.pow_add_r by lia. nia. }
  rewrite lor_disjoint by lia.
  assert (Hall : 0 <= d * 2 ^ (lw + 8) + (l * 2 ^ 8 + lit)
                 < 2 ^ (dw + lw + 8)).
  { replace (dw + lw + 8) with (dw + (lw + 8)) by lia.
    rewrite (Z.pow_add_r 2 dw) by lia.
    assert (0 < 2 ^ (lw + 8)) by (apply Z.pow_pos_nonneg; lia).
    nia. }
  change (2 ^ (dw + lw + 8) - 1) with (Z.pred (2 ^ (dw + lw + 8))).
  rewrite <- Z.ones_equiv, Z.land_ones by lia.
  rewrite Z.mod_small by lia. lia.
Qed.

(** C8 (pack bit layout).  For fields within their widths, the packer
    returns [(distance << (len_width + 8)) | (length << 8) | literal] cut
    to [token_width = dist_width + len_width + 8] bits; for fields that are
    not negative this is the word with [distance] on top, [length] below it
    and [literal] in the low eight bits.  With widths 4 and 4, the token
    (1, 2, 0x41) packs to 0x1241. *)
Theorem pack_bit_layout dw lw d l lit :
  0 <= dw -> 0 <= lw ->
  d < 2 ^ dw -> l < 2 ^ lw -> 0 <= lit <= 255 ->
  pack_token_word dw lw (dw + lw + 8) d l lit = Ok (layout_word dw lw d l lit)
  /\ (0 <= d -> 0 <= l ->
      layout_word dw lw d l lit = d * 2 ^ (lw + 8) + l * 2 ^ 8 + lit)
  /\ pack_token_word 4 4 (4 + 4 + 8) 1 2 0x41 = Ok 0x1241.
Proof.
  intros Hdw Hlw Hd Hl Hlit. split; [|split].
  - rewrite pack_unfold by lia.
    destruct (Z.geb_spec d (2 ^ dw)); [lia|].
    destruct (Z.geb_spec l (2 ^ lw)); [lia|].
    destruct (Z.ltb_spec lit 0); [lia|].
    destruct (Z.gtb_spec lit 255); [lia|].
    reflexivity.
  - intros Hd0 Hl0. apply layout_word_sum; lia.
  - reflexivity.
Qed.

Lemma pack_bit_layout_witness :
  Codec.pack_token_word 4 4 (4 + 4 + 8) 1 2 65 = Ok (layout_word 4 4 1 2 65)
  /\ layout_word 4 4 1 2 65 = 1 * 2 ^ (4 + 8) + 2 * 2 ^ 8 + 65.
Proof.
  destruct (pack_bit_layout 4 4 1 2 65) as (H1 & H2 & _);
    [lia | lia | reflexivity | reflexivity | lia |].
  split; [exact H1 | apply H2; lia].
Defined.

(** C9 (overflow rejection).  With widths that are not negative, the packer
    raises one of its three field errors exactly when
    [distance >= 2^dist_width], [length >= 2^len_width] or [literal] is
    outside [0, 255]; otherwise it returns a word. *)
Theorem pack_overflow_iff dw lw tw d l lit :
  0 <= dw -> 0 <= lw -> 0 <= tw ->
  ((exists e, pack_token_word dw lw tw d l lit = Raise e
              /\ is_field_overflow e = true)
   <-> (d >= 2 ^ dw \/ l >= 2 ^ lw \/ lit < 0 \/ lit > 255))
  /\ (d < 2 ^ dw -> l < 2 ^ lw -> 0 <= lit <= 255 ->
      exists word, pack_token_word dw lw tw d l lit = Ok word).
Proof.
  intros Hdw Hlw Htw. rewrite pack_unfold by assumption.
  destruct (Z.geb_spec d (2 ^ dw)) as [Hd|Hd].
  { split; [split|]; [intros _; lia | intros _; eexists; split; reflexivity
                     | intros; lia]. }
  destruct (Z.geb_spec l (2 ^ lw)) as [Hl|Hl].
  { split; [split|]; [intros _; lia | intros _; eexists; split; reflexivity
                     | intros; lia]. }
  destruct (Z.ltb_spec lit 0) as [Hlit|Hlit]; simpl.
  { split; [split|]; [intros _; lia | intros _; eexists; split; reflexivity
                     | intros; lia]. }
  destruct (Z.gtb_spec lit 255) as [Hhi|Hhi].
  { split; [split|]; [intros _; lia | intros _; eexists; split; reflexivity
                     | intros; lia]. }
  split; [split|].
  - intros (e & He & _). discriminate He.
  - lia.
  - intros _ _ _. eexists. reflexivity.
Qed.

Lemma pack_overflow_iff_witness :
  (exists e, Codec.pack_token_word 4 4 16 16 2 65 = Raise e
             /\ is_field_overflow e = true)
  /\ (exists word, Codec.pack_token_word 4 4 16 15 15 255 = Ok word).
Proof.
  split.
  - apply (pack_overflow_iff 4 4 16 16 2 65); lia.
  - apply (pack_overflow_iff 4 4 16 15 15 255); [lia | lia | lia | | | lia];
      reflexivity.
Defined.

End CodecFacts.

(** * The decoder *)

Module DecoderFacts.
Import Decoder.

(** ** Lists *)

Lemma len_app {A : Type} (l l' : list A) : Py.len (l ++ l') = Py.len l + Py.len l'.
Proof. unfold Py.len. rewrite length_app. lia. Qed.

Lemma len_nonneg {A : Type} (l : list A) : 0 <= Py.len l.
Proof. unfold Py.len. lia. Qed.

Lemma lastn_length {A : Type} (k : nat) (l : list A) :
  length (lastn k l) = Nat.min k (length l).
Proof. unfold lastn. rewrite length_skipn. lia. Qed.

Lemma lastn_all {A : Type} (k : nat) (l : list A) :
  (length l <= k)%nat -> lastn k l = l.
Proof.
  intros H. unfold lastn.
  replace (length l - k)%nat with 0%nat by lia. reflexivity.
Qed.

(** Cutting to the last [k] before or after an append is the same. *)
Lemma lastn_snoc {A : Type} (k : nat) (l : list A) (b : A) :
  (1 <= k)%nat -> lastn k (lastn k l ++ [b]) = lastn k (l ++ [b]).
Proof.
  intros Hk.
  destruct (Nat.le_gt_cases (length l) k) as [Hle|Hgt].
  - rewrite (lastn_all k l) by assumption. reflexivity.
  - unfold lastn at 1 3. rewrite !length_app, lastn_length. simpl.
    replace (Nat.min k (length l) + 1 - k)%nat with 1%nat by lia.
    replace (length l + 1 - k)%nat with (S (length l - k)) by lia.
    unfold lastn.
    rewrite (skipn_app (S (length l - k)) l).
    replace (S (length l - k) - length l)%nat with 0%nat by lia.
    rewrite skipn_O.
    rewrite (skipn_app 1).
    rewrite length_skipn.
    replace (1 - (length l - (length l - k)))%nat with 0%nat by lia.
    rewrite skipn_O, skipn_skipn. reflexivity.
Qed.

Lemma last_default_irrelevant {A : Type} (a d d' : A) (l : list A) :
  last (a :: l) d = last (a :: l) d'.
Proof.
  revert a. induction l as [|b l IH]; intros a; [reflexivity|].
  change (last (b :: l) d = last (b :: l) d'). apply IH.
Qed.

Lemma last_cons_default {A : Type} (a d : A) (l : list A) :
  last (a :: l) d = last l a.
Proof.
  destruct l as [|b l]; [reflexivity|].
  change (last (b :: l) d = last (b :: l) a).
  apply last_default_irrelevant.
Qed.

(** ** Truncation *)

Lemma truncate_out w st : out_full (truncate w st) = out_full st.
Proof. unfold truncate. destruct (_ >? _); reflexivity. Qed.

(** For a window of one byte or more, truncation keeps the last
    [window_size] bytes of the history. *)
Lemma truncate_hist w st :
  1 <= w -> hist (truncate w st) = lastn (Z.to_nat w) (hist st).
Proof.
  intros Hw. unfold truncate.
  destruct (Z.gtb_spec (Py.len (hist st)) w) as [Hgt|Hle]; simpl.
  - unfold Py.slice_from, lastn.
    destruct (Z.ltb_spec (- w) 0); [|lia].
    f_equal. unfold Py.len in *. lia.
  - symmetry. apply lastn_all. unfold Py.len in Hle. lia.
Qed.

Lemma truncate_bound w st : 1 <= w -> Py.len (hist (truncate w st)) <= w.
Proof.
  intros Hw. rewrite truncate_hist by assumption.
  unfold Py.len. rewrite lastn_length. lia.
Qed.

(** ** The window invariant: the history is the tail of the output *)

Lemma windowed_bound w st : 0 <= w -> windowed w st -> Py.len (hist st) <= w.
Proof.
  intros Hw H. rewrite H. unfold Py.len. rewrite lastn_length. lia.
Qed.

Lemma windowed_init w : windowed w init.
Proof. reflexivity. Qed.

Lemma windowed_push w b st :
  1 <= w -> windowed w st -> windowed w (truncate w (append b st)).
Proof.
  intros Hw H. unfold windowed.
  rewrite truncate_hist, truncate_out by assumption. simpl.
  rewrite H. apply lastn_snoc. lia.
Qed.

(** ** Growth of the output *)

Lemma ext_refl s : ext s s.
Proof. exists []. now rewrite app_nil_r. Qed.

Lemma ext_trans s1 s2 s3 : ext s1 s2 -> ext s2 s3 -> ext s1 s3.
Proof.
  intros [a Ha] [b Hb]. exists (a ++ b). now rewrite Hb, Ha, app_assoc.
Qed.

Lemma ext_append b st : ext st (append b st).
Proof. exists [b]. reflexivity. Qed.

Lemma ext_truncate w st : ext st (truncate w st).
Proof. exists []. now rewrite truncate_out, app_nil_r. Qed.

Lemma ext_push w b st : ext st (truncate w (append b st)).
Proof. eapply ext_trans; [apply ext_append | apply ext_truncate]. Qed.

Lemma grows_weaken p p' obs : ext p p' -> grows p' obs -> grows p obs.
Proof.
  destruct obs as [|a obs]; [trivial|].
  intros Hp [Ha Hg]. split; [|exact Hg]. exact (ext_trans _ _ _ Hp Ha).
Qed.

Lemma grows_app p o1 o2 :
  grows p o1 -> grows (last o1 p) o2 -> grows p (o1 ++ o2).
Proof.
  revert p. induction o1 as [|a o1 IH]; intros p H1 H2; [exact H2|].
  destruct H1 as [Ha H1]. split; [exact Ha|].
  apply IH; [exact H1|]. now rewrite <- (last_cons_default a p).
Qed.

Lemma last_app_default {A : Type} (l1 l2 : list A) (d : A) :
  last (l1 ++ l2) d = last l2 (last l1 d).
Proof.
  revert d. induction l1 as [|a l1 IH]; intros d; [reflexivity|].
  rewrite <- app_comm_cons, !last_cons_default. apply IH.
Qed.

(** ** The observed loop is the loop *)

Lemma copy_loop_obs_sound w start n : 1 <= w ->
  forall k st, windowed w st ->
    sound w st (copy_loop_obs w start n k st) (copy_loop w start n k st).
Proof.
  intros Hw. induction n as [|n IH]; intros k st Hst; simpl.
  - split; [reflexivity|]. split; [constructor|]. split; [exact I|].
    simpl. intros st' H. inversion H; subst. split; [assumption|apply ext_refl].
  - destruct (Py.index (hist st) (start + k)) as [b|].
    + specialize (IH (k + 1) (truncate w (append b st))
                     (windowed_push w b st Hw Hst)).
      destruct (copy_loop_obs w start n (k + 1) (truncate w (append b st)))
        as [obs r].
      destruct IH as (Hr & Hall & Hg & Hfin).
      unfold sound. cbn [fst snd] in *.
      split; [exact Hr|]. split; [constructor; assumption|].
      split.
      * split; [apply ext_refl|].
        apply grows_weaken with (truncate w (append b st));
          [apply ext_push | assumption].
      * intros st' H. destruct (Hfin st' H) as [Hw' He].
        split; [assumption|]. rewrite last_cons_default.
        destruct obs as [|o obs].
        -- eapply ext_trans; [apply ext_push | exact He].
        -- rewrite (last_default_irrelevant o st (truncate w (append b st))).
           exact He.
    + split; [reflexivity|]. split; [constructor; [assumption|constructor]|].
      split; [split; [apply ext_refl|exact I]|]. simpl. discriminate.
Qed.

Lemma step_obs_sound w tok : 1 <= w ->
  forall st, windowed w st ->
    sound w st (step_obs w st tok) (step w st tok)
    /\ forall st', snd (step_obs w st tok) = Ok st' ->
                   st' = last (fst (step_obs w st tok)) st.
Proof.
  intros Hw st Hst. destruct tok as [[distance length] literal].
  unfold step_obs, step, sound.
  destruct (length =? 0).
  - simpl.
    assert (Hp := windowed_push w literal st Hw Hst).
    split; [split; [reflexivity|]|].
    + split; [constructor; [assumption|constructor]|].
      split; [split; [apply ext_push|exact I]|].
      intros st' H; inversion H; subst. split; [assumption|apply ext_refl].
    + intros st' H; inversion H; reflexivity.
  - unfold back_reference_obs, back_reference.
    destruct (distance =? 0).
    { simpl. split; [split; [reflexivity|]|discriminate].
      split; [constructor; [assumption|constructor]|].
      split; [split; [apply ext_refl|exact I]|discriminate]. }
    destruct (distance >? Py.len (hist st)).
    { simpl. split; [split; [reflexivity|]|discriminate].
      split; [constructor; [assumption|constructor]|].
      split; [split; [apply ext_refl|exact I]|discriminate]. }
    pose proof (copy_loop_obs_sound w (Py.len (hist st) - distance)
                  (Z.to_nat length) Hw 0 st Hst) as Hc.
    destruct (copy_loop_obs w (Py.len (hist st) - distance)
                            (Z.to_nat length) 0 st) as [obs r].
    destruct Hc as (Hr & Hall & Hg & Hfin). cbn [fst snd] in *.
    rewrite <- Hr. destruct r as [st1|e]; cbn [fst snd bind].
    + destruct (Hfin st1 eq_refl) as [Hw1 He1].
      assert (Hp := windowed_push w literal st1 Hw Hw1).
      assert (Hlast : last ((st :: obs) ++ [truncate w (append literal st1)]) st
                      = truncate w (append literal st1)).
      { rewrite last_app_default. reflexivity. }
      split; [split; [reflexivity|]|].
      * split.
        { apply Forall_app. split; [constructor; assumption|].
          constructor; [assumption|constructor]. }
        split.
        { apply grows_app; [split; [apply ext_refl|assumption]|].
          split; [|exact I]. rewrite last_cons_default.
          eapply ext_trans; [exact He1 | apply ext_push]. }
        intros st' H. inversion H; subst.
        split; [assumption|]. rewrite Hlast. apply ext_refl.
      * intros st' H. inversion H; subst. symmetry. exact Hlast.
    + split; [split; [reflexivity|]|discriminate].
      split; [constructor; assumption|].
      split; [split; [apply ext_refl|assumption]|discriminate].
Qed.

Lemma run_obs_sound w tokens : 1 <= w ->
  forall st, windowed w st ->
    snd (run_obs w tokens st) = run w tokens st
    /\ Forall (windowed w) (fst (run_obs w tokens st))
    /\ grows st (fst (run_obs w tokens st))
    /\ forall st', snd (run_obs w tokens st) = Ok st' ->
                   st' = last (fst (run_obs w tokens st)) st.
Proof.
  intros Hw. induction tokens as [|tok rest IH]; intros st Hst; simpl.
  - split; [reflexivity|]. split; [constructor|]. split; [exact I|].
    intros st' H; inversion H; reflexivity.
  - destruct (step_obs_sound w tok Hw st Hst)
      as [(Hr & Hall & Hg & Hfin) Hlast].
    destruct (step_obs w st tok) as [obs r]. cbn [fst snd] in *.
    rewrite <- Hr. destruct r as [st1|e]; cbn [fst snd bind].
    + destruct (Hfin st1 eq_refl) as [Hw1 _].
      specialize (IH st1 Hw1).
      destruct (run_obs w rest st1) as [obs' r'].
      destruct IH as (Hr' & Hall' & Hg' & Hlast'). cbn [fst snd] in *.
      split; [assumption|].
      split; [apply Forall_app; split; assumption|].
      split.
      * apply grows_app; [assumption|].
        rewrite <- (Hlast st1 eq_refl). assumption.
      * intros st' H. rewrite last_app_default, <- (Hlast st1 eq_refl).
        apply Hlast'; assumption.
    + split; [reflexivity|]. split; [assumption|].
      split; [assumption|discriminate].
Qed.

(** ** Invariants of the token loop *)

Lemma step_windowed w tok st st' :
  1 <= w -> windowed w st -> step w st tok = Ok st' -> windowed w st'.
Proof.
  intros Hw Hst H.
  destruct (step_obs_sound w tok Hw st Hst) as [(Hr & _ & _ & Hfin) _].
  rewrite <- Hr in H. exact (proj1 (Hfin st' H)).
Qed.

Lemma run_windowed w tokens : 1 <= w ->
  forall st st', windowed w st -> run w tokens st = Ok st' -> windowed w st'.
Proof.
  intros Hw. induction tokens as [|tok rest IH]; intros st st' Hst H; simpl in H.
  - inversion H; subst; assumption.
  - destruct (step w st tok) as [st1|e] eqn:E; simpl in H; [|discriminate].
    apply (IH st1); [|assumption]. exact (step_windowed w tok st st1 Hw Hst E).
Qed.

Lemma run_app w pre post st :
  run w (pre ++ post) st = (st' <- run w pre st ;; run w post st').
Proof.
  revert st. induction pre as [|tok pre IH]; intros st; simpl; [reflexivity|].
  destruct (step w st tok) as [st1|e]; simpl; [apply IH | reflexivity].
Qed.

(** ** Reads of the copy loop *)

Lemma index_in_bounds {A : Type} (l : list A) x :
  0 <= x < Py.len l ->
  Py.index l x = nth_error l (Z.to_nat x) /\ exists b, Py.index l x = Some b.
Proof.
  intros Hx. unfold Py.index.
  destruct (Z.ltb_spec x 0); [lia|].
  destruct (Z.ltb_spec x 0); [lia|].
  destruct (Z.leb_spec (Py.len l) x); [lia|]. simpl.
  split; [reflexivity|].
  destruct (nth_error l (Z.to_nat x)) as [b|] eqn:E; [eexists; reflexivity|].
  apply nth_error_None in E. unfold Py.len in Hx. lia.
Qed.

Lemma index_out_of_bounds {A : Type} (l : list A) x :
  Py.len l <= x -> Py.index l x = None.
Proof.
  intros Hx. pose proof (len_nonneg l). unfold Py.index.
  destruct (Z.ltb_spec x 0); [lia|].
  destruct (Z.ltb_spec x 0); [lia|].
  destruct (Z.leb_spec (Py.len l) x); [|lia]. reflexivity.
Qed.

Lemma len_hist_push w b st :
  1 <= w ->
  Py.len (hist (truncate w (append b st))) = Z.min (Py.len (hist st) + 1) w.
Proof.
  intros Hw. rewrite truncate_hist by assumption.
  unfold Py.len. rewrite lastn_length. simpl. rewrite length_app. simpl. lia.
Qed.

(** From a history of [L] bytes at the start of the loop, the history at
    round [k] holds [min (L + k) w] bytes, and the read at [L - d + k] is in
    range as long as it stays below [w]. *)
Lemma copy_loop_in_bounds w L d cnt :
  1 <= w -> 1 <= d <= L ->
  forall k st,
    0 <= k -> Py.len (hist st) = Z.min (L + k) w ->
    L - d + k + Z.of_nat cnt <= w ->
    exists st', copy_loop w (L - d) cnt k st = Ok st'.
Proof.
  intros Hw Hd. induction cnt as [|cnt IH]; intros k st Hk Hlen Hsum; simpl.
  - eexists; reflexivity.
  - destruct (index_in_bounds (hist st) (L - d + k)) as [_ [b ->]]; [lia|].
    apply IH; [lia | | lia].
    rewrite len_hist_push, Hlen by assumption. lia.
Qed.

Lemma copy_loop_out_of_bounds w L d cnt :
  1 <= w -> 1 <= d <= L ->
  forall k st,
    0 <= k -> Py.len (hist st) = Z.min (L + k) w ->
    L - d + k <= w -> w < L - d + k + Z.of_nat cnt ->
    copy_loop w (L - d) cnt k st = Raise IndexError.
Proof.
  intros Hw Hd. induction cnt as [|cnt IH]; intros k st Hk Hlen Hcur Hsum;
    simpl.
  - lia.
  - destruct (Z.eq_dec (L - d + k) w) as [Heq|Hne].
    + rewrite index_out_of_bounds by lia. reflexivity.
    + destruct (index_in_bounds (hist st) (L - d + k)) as [_ [b ->]]; [lia|].
      apply IH; [lia | | lia | lia].
      rewrite len_hist_push, Hlen by assumption. lia.
Qed.

Lemma copy_loop_raises w start cnt : forall k st e,
  copy_loop w start cnt k st = Raise e -> e = IndexError.
Proof.
  induction cnt as [|cnt IH]; intros k st e H; simpl in H; [discriminate|].
  destruct (Py.index (hist st) (start + k)); [|now inversion H].
  exact (IH _ _ _ H).
Qed.

(** X9 (when the reads are in range).  The reads of a validated token of
    positive length are all in range exactly when
    [len(hist) + length <= window_size + distance]; otherwise the token
    raises IndexError. *)
Lemma validated_reads_in_bounds_iff w st distance length literal :
  1 <= w -> Py.len (hist st) <= w ->
  1 <= distance <= Py.len (hist st) -> 0 < length ->
  (Py.len (hist st) + length <= w + distance ->
   exists st', step w st (distance, length, literal) = Ok st')
  /\ (w + distance < Py.len (hist st) + length ->
      step w st (distance, length, literal) = Raise IndexError).
Proof.
  intros Hw HL Hd Hlen. unfold step, back_reference.
  destruct (Z.eqb_spec length 0); [lia|].
  destruct (Z.eqb_spec distance 0); [lia|].
  destruct (Z.gtb_spec distance (Py.len (hist st))); [lia|].
  split; intros Hsum.
  - destruct (copy_loop_in_bounds w (Py.len (hist st)) distance
                (Z.to_nat length) Hw Hd 0 st) as [st' ->]; [lia | lia | lia|].
    simpl. eexists; reflexivity.
  - rewrite (copy_loop_out_of_bounds w (Py.len (hist st)) distance
               (Z.to_nat length) Hw Hd 0 st); [reflexivity | lia | lia | lia | lia].
Qed.

Lemma validated_reads_in_bounds_iff_witness :
  (exists st', step 4 (mkState [65; 66; 67] [65; 66; 67]) (1, 2, 88) = Ok st')
  /\ step 2 (mkState [65; 66] [65; 66]) (1, 2, 67) = Raise IndexError.
Proof.
  split.
  - apply (validated_reads_in_bounds_iff 4 (mkState [65; 66; 67] [65; 66; 67])
             1 2 88); vm_compute; intuition discriminate.
  - apply (validated_reads_in_bounds_iff 2 (mkState [65; 66] [65; 66])
             1 2 67); vm_compute; intuition discriminate.
Defined.

(** ** The copy loop while the history is not cut *)

Lemma index_nonneg {A : Type} (l : list A) x :
  0 <= x -> Py.index l x = nth_error l (Z.to_nat x).
Proof.
  intros Hx. destruct (Z.lt_ge_cases x (Py.len l)) as [Hlt|Hge].
  - apply index_in_bounds. lia.
  - rewrite index_out_of_bounds by assumption. symmetry.
    apply nth_error_None. unfold Py.len in Hge. lia.
Qed.

Lemma grow_copy_prefix cnt : forall h pos h',
  grow_copy h pos cnt = Some h' ->
  exists added, h' = h ++ added /\ length added = cnt.
Proof.
  induction cnt as [|cnt IH]; intros h pos h' H; simpl in H.
  - inversion H; subst. exists []. now rewrite app_nil_r.
  - destruct (nth_error h pos) as [b|]; [|discriminate].
    destruct (IH _ _ _ H) as (added & -> & Hlen).
    exists (b :: added). rewrite <- app_assoc. simpl. auto.
Qed.

(** X10 (the copy while the history is not cut).  As long as the history
    is not cut before the last read
    ([len(hist) + length <= window_size + 1]), the loop is the copy on a
    growing history: an overlapping back-reference then extends itself. *)
Lemma copy_loop_uncut w start cnt :
  1 <= w ->
  forall k st,
    0 <= start + k ->
    Py.len (hist st) <= w ->
    Py.len (hist st) + Z.of_nat cnt <= w + 1 ->
    copy_loop w start cnt k st =
      match grow_copy (hist st) (Z.to_nat (start + k)) cnt with
      | Some h' =>
          Ok (mkState (out_full st ++ skipn (length (hist st)) h')
                      (lastn (Z.to_nat w) h'))
      | None => Raise IndexError
      end.
Proof.
  intros Hw. induction cnt as [|cnt IH]; intros k st Hk Hle Hsum.
  - simpl. rewrite skipn_all, app_nil_r, lastn_all
      by (unfold Py.len in Hle; lia).
    destruct st; reflexivity.
  - cbn [copy_loop grow_copy]. rewrite index_nonneg by assumption.
    destruct (nth_error (hist st) (Z.to_nat (start + k))) as [b|];
      [|reflexivity].
    assert (Hh : hist (truncate w (append b st))
                 = lastn (Z.to_nat w) (hist st ++ [b]))
      by (apply truncate_hist; assumption).
    assert (Ho : out_full (truncate w (append b st)) = out_full st ++ [b])
      by (apply truncate_out).
    destruct cnt as [|cnt].
    + simpl. rewrite skipn_app, skipn_all, Nat.sub_diag. simpl.
      rewrite <- Hh, <- Ho. destruct (truncate w (append b st)); reflexivity.
    + assert (Hfull : hist (truncate w (append b st)) = hist st ++ [b]).
      { rewrite Hh. apply lastn_all. rewrite length_app. simpl.
        unfold Py.len in Hsum. lia. }
      rewrite IH; rewrite ?Hfull, ?Ho, ?len_app; unfold Py.len in *;
        simpl length; try lia.
      replace (Z.to_nat (start + (k + 1))) with (S (Z.to_nat (start + k)))
        by lia.
      destruct (grow_copy (hist st ++ [b]) (S (Z.to_nat (start + k))) (S cnt))
        as [h'|] eqn:E; [|reflexivity].
      destruct (grow_copy_prefix _ _ _ _ E) as (added & -> & _).
      f_equal. f_equal.
      rewrite (skipn_app (length (hist st ++ [b]))), skipn_all, Nat.sub_diag.
      rewrite <- (app_assoc (hist st) [b] added).
      rewrite (skipn_app (length (hist st))), skipn_all, Nat.sub_diag.
      simpl. now rewrite <- app_assoc.
Qed.

Lemma copy_loop_uncut_witness :
  copy_loop 8 1 4 0 (mkState [65; 66; 67] [65; 66; 67])
  = match grow_copy [65; 66; 67] (Z.to_nat (1 + 0)) 4 with
    | Some h' =>
        Ok (mkState ([65; 66; 67] ++ skipn 3 h') (lastn (Z.to_nat 8) h'))
    | None => Raise IndexError
    end.
Proof.
  apply (copy_loop_uncut 8 1 4 ltac:(lia) 0 (mkState [65; 66; 67] [65; 66; 67]));
    vm_compute; discriminate.
Defined.

(** ** The errors raised on purpose *)

(** The code tests [length != 0], then [distance == 0] or
    [distance > len(hist)]: on a length that is not negative, this is
    [violates]. *)
Lemma step_raises_invalid w st tok :
  0 <= tok_length tok ->
  (exists e, step w st tok = Raise e /\ is_invalid_back_reference e = true)
  <-> violates st tok = true.
Proof.
  destruct tok as [[distance length] literal].
  unfold tok_length, violates, step, back_reference. simpl. intros Hlen.
  destruct (Z.eqb_spec length 0) as [->|Hne]; simpl.
  { split; [intros (e & He & _); discriminate He | discriminate]. }
  destruct (Z.gtb_spec length 0); [|lia]. simpl.
  destruct (Z.eqb_spec distance 0); simpl.
  { split; [reflexivity | intros _; eexists; split; reflexivity]. }
  destruct (Z.gtb_spec distance (Py.len (hist st))); simpl.
  { split; [reflexivity | intros _; eexists; split; reflexivity]. }
  split; [|discriminate]. intros (e & He & Hinv).
  destruct (copy_loop w (Py.len (hist st) - distance) (Z.to_nat length) 0 st)
    as [st'|e'] eqn:E; simpl in He; [discriminate He|].
  inversion He; subst. apply copy_loop_raises in E. subst. discriminate Hinv.
Qed.

(** X11 (the errors raised on purpose).  On tokens whose lengths are not
    negative, the decoder raises one of its two errors exactly when it
    reaches a token of positive length with a zero distance or a distance
    beyond the history of that moment. *)
Lemma invalid_back_reference_iff w tokens :
  Forall (fun tok => 0 <= tok_length tok) tokens ->
  forall st0,
    (exists e, run w tokens st0 = Raise e /\ is_invalid_back_reference e = true)
    <-> (exists pre tok post st,
            tokens = pre ++ tok :: post
            /\ run w pre st0 = Ok st /\ violates st tok = true).
Proof.
  induction 1 as [|tok rest Htok Hrest IH]; intros st0.
  - split.
    + intros (e & He & _). discriminate He.
    + intros (pre & tok & post & st & Heq & _). destruct pre; discriminate.
  - pose proof (step_raises_invalid w st0 tok Htok) as Hstep.
    cbn [run]. destruct (step w st0 tok) as [st1|e1] eqn:E; cbn [bind].
    + rewrite (IH st1). split.
      * intros (pre & t & post & st & Heq & Hrun & Hv).
        exists (tok :: pre), t, post, st. subst rest.
        split; [reflexivity|]. split; [|assumption].
        cbn [run]. rewrite E. exact Hrun.
      * intros (pre & t & post & st & Heq & Hrun & Hv).
        destruct pre as [|p pre]; simpl in Heq; inversion Heq; subst.
        -- simpl in Hrun. inversion Hrun; subst.
           apply Hstep in Hv. destruct Hv as (e & He & _). discriminate He.
        -- cbn [run] in Hrun. rewrite E in Hrun. cbn [bind] in Hrun.
           exists pre, t, post, st. split; [reflexivity|]. split; assumption.
    + split.
      * intros (e & He & Hinv). inversion He; subst.
        exists [], tok, rest, st0. split; [reflexivity|].
        split; [reflexivity|]. apply Hstep. exists e. split; [reflexivity|assumption].
      * intros (pre & t & post & st & Heq & Hrun & Hv).
        destruct pre as [|p pre]; simpl in Heq; inversion Heq; subst.
        -- simpl in Hrun. inversion Hrun; subst.
           apply Hstep in Hv. destruct Hv as (e & He & Hinv).
           inversion He; subst. exists e. split; [reflexivity|assumption].
        -- cbn [run] in Hrun. rewrite E in Hrun. discriminate Hrun.
Qed.

Lemma invalid_back_reference_iff_witness :
  (exists e, run 4 [(0, 0, 65); (0, 2, 66)] init = Raise e
             /\ is_invalid_back_reference e = true)
  <-> (exists pre tok post st,
          [(0, 0, 65); (0, 2, 66)] = pre ++ tok :: post
          /\ run 4 pre init = Ok st /\ violates st tok = true).
Proof.
  apply (invalid_back_reference_iff 4 [(0, 0, 65); (0, 2, 66)]).
  repeat constructor; vm_compute; discriminate.
Defined.

(** Scenario 4: the token (3, 2, 65) met with a history of length 2 raises
    the invalid back-reference error. *)
Lemma distance_exceeds_history_raises w a b :
  2 <= w ->
  run w [(0, 0, a); (0, 0, b)] init = Ok (mkState [a; b] [a; b])
  /\ step w (mkState [a; b] [a; b]) (3, 2, 65) = Raise (InvalidBackRef 3 2)
  /\ decompress_stream [(0, 0, a); (0, 0, b); (3, 2, 65)] w
     = Raise (InvalidBackRef 3 2).
Proof.
  intros Hw.
  assert (H1 : run w [(0, 0, a); (0, 0, b)] init = Ok (mkState [a; b] [a; b])).
  { cbn [run step init]. simpl. unfold truncate, append. simpl.
    destruct (Z.gtb_spec (Py.len [a]) w) as [H|H]; [unfold Py.len in H; simpl in H; lia|].
    simpl.
    destruct (Z.gtb_spec (Py.len [a; b]) w) as [H'|H'];
      [unfold Py.len in H'; simpl in H'; lia|].
    reflexivity. }
  assert (H2 : step w (mkState [a; b] [a; b]) (3, 2, 65)
               = Raise (InvalidBackRef 3 2)) by reflexivity.
  split; [exact H1|]. split; [exact H2|].
  unfold decompress_stream.
  change [(0, 0, a); (0, 0, b); (3, 2, 65)]
    with ([(0, 0, a); (0, 0, b)] ++ [(3, 2, 65)]).
  rewrite run_app, H1. cbn [bind run]. rewrite H2. reflexivity.
Qed.

(** C6 (history bound).  For a window of one byte or more, at every point
    where a back-reference is resolved against the history and after every
    token, the history holds [window_size] bytes at most, and is the tail
    of the output; from one such point to the next the output only gains
    bytes at its end, and the state returned is the last one observed. *)
Theorem history_bound_invariant w tokens :
  1 <= w ->
  let obs := fst (run_obs w tokens init) in
  snd (run_obs w tokens init) = run w tokens init
  /\ Forall (fun st => Py.len (hist st) <= w /\ windowed w st) obs
  /\ grows init obs
  /\ forall st, run w tokens init = Ok st -> st = last obs init.
Proof.
  intros Hw obs.
  destruct (run_obs_sound w tokens Hw init (windowed_init w))
    as (Hr & Hall & Hg & Hlast).
  split; [exact Hr|]. split; [|split; [exact Hg|]].
  - apply Forall_impl with (2 := Hall).
    intros st Hst. split; [apply windowed_bound; [lia|assumption]|assumption].
  - intros st H. apply Hlast. now rewrite Hr.
Qed.

Lemma history_bound_invariant_witness :
  let tokens := [(0, 0, 65); (0, 0, 66); (2, 3, 67); (1, 1, 68)] in
  Forall (fun st => Py.len (hist st) <= 2 /\ windowed 2 st)
         (fst (run_obs 2 tokens init))
  /\ grows init (fst (run_obs 2 tokens init)).
Proof.
  intros tokens.
  destruct (history_bound_invariant 2 tokens) as (_ & H1 & H2 & _); [lia|].
  split; assumption.
Defined.

(** With [window_size = 0] the slice [hist[-0:]] is the whole list, so the
    history is never cut. *)
Remark zero_window_keeps_history :
  run 0 [(0, 0, 65); (0, 0, 66)] init = Ok (mkState [65; 66] [65; 66]).
Proof. reflexivity. Qed.

(** C3, as the specification states it, fails: a literal token carries any
    distance, and no length is compared with a maximum. *)
Lemma decoder_accepts_out_of_range_fields :
  ~ validates_bounds 16 15
  /\ decompress_stream [(17, 0, 65)] 16 = Ok ["A"%byte]
  /\ decompress_stream [(0, 0, 65); (1, 16, 66)] 16
     = Ok (repeat "A"%byte 17 ++ ["B"%byte]).
Proof.
  split; [|split; reflexivity].
  intros H.
  destruct (H [(17, 0, 65)] 17 0 65) as [e He];
    [left; reflexivity | left; lia | discriminate He].
Qed.

(** C3, amended.  For a window of one byte or more, a token whose length is
    not zero and whose distance exceeds [window_size] is rejected: if the
    tokens before it decode, the decoder raises the invalid back-reference
    error at that token; the decoding fails in any case. *)
Theorem decoder_rejects_far_distance w pre distance length literal post :
  1 <= w -> length <> 0 -> distance > w ->
  (exists e, decompress_stream (pre ++ (distance, length, literal) :: post) w
             = Raise e)
  /\ (forall st, run w pre init = Ok st ->
                 step w st (distance, length, literal)
                 = Raise (InvalidBackRef distance (Py.len (hist st)))).
Proof.
  intros Hw Hlen Hdist.
  assert (Hstep : forall st, run w pre init = Ok st ->
                    step w st (distance, length, literal)
                    = Raise (InvalidBackRef distance (Py.len (hist st)))).
  { intros st Hrun.
    assert (Hb : Py.len (hist st) <= w).
    { apply windowed_bound; [lia|].
      exact (run_windowed w pre Hw init st (windowed_init w) Hrun). }
    unfold step, back_reference.
    destruct (Z.eqb_spec length 0); [contradiction|].
    destruct (Z.eqb_spec distance 0); [lia|].
    destruct (Z.gtb_spec distance (Py.len (hist st))); [reflexivity|lia]. }
  split; [|exact Hstep].
  unfold decompress_stream. rewrite run_app.
  destruct (run w pre init) as [st|e] eqn:E; cbn [bind run].
  - rewrite (Hstep st eq_refl). eexists; reflexivity.
  - eexists; reflexivity.
Qed.

Lemma decoder_rejects_far_distance_witness :
  exists e, decompress_stream ([(0, 0, 65)] ++ (3, 1, 66) :: [(0, 0, 67)]) 2
            = Raise e.
Proof.
  apply (decoder_rejects_far_distance 2 [(0, 0, 65)] 3 1 66 [(0, 0, 67)]); lia.
Defined.

End DecoderFacts.

(** * The encoder *)

Module EncoderFacts.
Import Encoder.

(** ** [range] *)

Lemma in_range a b j : In j (Py.range a b) <-> a <= j < b.
Proof.
  unfold Py.range. rewrite in_map_iff. split.
  - intros (k & <- & Hk). apply in_seq in Hk. lia.
  - intros H. exists (Z.to_nat (j - a)). split; [lia|].
    apply in_seq. lia.
Qed.

Lemma range_sorted a b : StronglySorted Z.lt (Py.range a b).
Proof.
  unfold Py.range. generalize (Z.to_nat (b - a)) as len.
  intros len. generalize 0%nat as s. induction len as [|len IH]; intros s.
  - constructor.
  - simpl. constructor; [apply IH|].
    apply Forall_forall. intros x Hx.
    apply in_map_iff in Hx. destruct Hx as (k & <- & Hk).
    apply in_seq in Hk. lia.
Qed.

Section Facts.

Variable data : list byte.
Variables window_size max_length : Z.

#[local] Abbreviation n := (n data).
#[local] Abbreviation extends := (extends data max_length).
#[local] Abbreviation match_loop := (match_loop data max_length).
#[local] Abbreviation match_length := (match_length data max_length).
#[local] Abbreviation eligible := (eligible data max_length).
#[local] Abbreviation scan_body := (scan_body data window_size max_length).
#[local] Abbreviation scan := (scan data window_size max_length).
#[local] Abbreviation find_best := (find_best data window_size max_length).
#[local] Abbreviation emit := (emit data window_size max_length).
#[local] Abbreviation compress_loop := (compress_loop data window_size max_length).

(** ** The inner [while] *)

Lemma match_loop_total fuel : forall i j ml,
  i - j - ml <= Z.of_nat fuel -> exists r, match_loop fuel i j ml = Some r.
Proof.
  induction fuel as [|fuel IH]; intros i j ml Hf; simpl.
  - destruct (Encoder.extends data max_length i j ml) eqn:E;
      [|eexists; reflexivity].
    unfold Encoder.extends in E. rewrite !andb_true_iff in E.
    destruct E as [[[_ E] _] _]. apply Z.ltb_lt in E. lia.
  - destruct (Encoder.extends data max_length i j ml) eqn:E;
      [|eexists; reflexivity].
    apply IH. lia.
Qed.

Lemma match_length_total i j : exists r, match_length i j = Some r.
Proof. apply match_loop_total. lia. Qed.

(** The loop leaves at the first [match_len] whose condition fails. *)
Lemma match_loop_spec fuel : forall i j ml r,
  match_loop fuel i j ml = Some r ->
  ml <= r /\ extends i j r = false
  /\ forall k, ml <= k < r -> extends i j k = true.
Proof.
  induction fuel as [|fuel IH]; intros i j ml r H; simpl in H.
  - destruct (Encoder.extends data max_length i j ml) eqn:E; [discriminate|].
    inversion H; subst. repeat split; [lia | assumption | intros; lia].
  - destruct (Encoder.extends data max_length i j ml) eqn:E.
    + destruct (IH _ _ _ _ H) as (Hle & Hstop & Hall).
      repeat split; [lia | assumption |].
      intros k Hk. destruct (Z.eq_dec k ml) as [->|]; [assumption|].
      apply Hall. lia.
    + inversion H; subst. repeat split; [lia | assumption | intros; lia].
Qed.

Lemma match_length_spec i j r :
  match_length i j = Some r ->
  0 <= r /\ extends i j r = false
  /\ forall k, 0 <= k < r -> extends i j k = true.
Proof. apply match_loop_spec. Qed.

Lemma extends_true i j k :
  extends i j k = true ->
  i + k < n /\ j + k < i /\ k < max_length
  /\ Py.byte_at data (j + k) = Py.byte_at data (i + k).
Proof.
  unfold Encoder.extends. rewrite !andb_true_iff, !Z.ltb_lt.
  intros [[[H1 H2] H3] H4]. repeat split; try assumption.
  now apply Byte.byte_dec_bl.
Qed.

(** What a positive match length says about the data. *)
Lemma match_length_pos i j r :
  match_length i j = Some r -> 0 < r ->
  r <= max_length /\ j + r <= i /\ i + r <= n
  /\ forall k, 0 <= k < r ->
       Py.byte_at data (j + k) = Py.byte_at data (i + k).
Proof.
  intros H Hr. destruct (match_length_spec i j r H) as (_ & _ & Hall).
  destruct (extends_true i j (r - 1)) as (H1 & H2 & H3 & _);
    [apply Hall; lia|].
  repeat split; try lia.
  intros k Hk. apply (extends_true i j k). apply Hall. lia.
Qed.

(** ** The [for] loop over the candidate starts *)

Lemma eligible_some i j ml :
  eligible i j = Some ml <->
  match_length i j = Some ml /\ 0 < ml /\ i + ml < n.
Proof.
  unfold Encoder.eligible.
  destruct (Encoder.match_length data max_length i j) as [r|];
    [|intuition discriminate].
  destruct (Z.gtb_spec r 0) as [Hr|Hr], (Z.ltb_spec (i + r) n) as [Hn|Hn];
    simpl; split; intros H.
  all: try discriminate H.
  all: try (inversion H; subst; auto; fail).
  all: destruct H as (H & ? & ?); inversion H; subst; lia || reflexivity.
Qed.

Lemma scan_body_total i best j : exists b, scan_body i best j = Some b.
Proof.
  destruct best as [bl bd]. unfold Encoder.scan_body.
  destruct (_ || _); [eexists; reflexivity|].
  destruct (match_length_total i j) as [r ->].
  destruct (_ && _); eexists; reflexivity.
Qed.

Lemma scan_total i js : forall best, exists b, scan i js best = Some b.
Proof.
  induction js as [|j js IH]; intros best; simpl; [eexists; reflexivity|].
  destruct (scan_body_total i best j) as [b ->]. apply IH.
Qed.

(** One round: the best is replaced exactly by a candidate that is
    strictly longer. *)
Lemma scan_body_spec i bl0 bd0 j b :
  scan_body i (bl0, bd0) j = Some b -> 0 <= bl0 ->
  (b = (bl0, bd0) /\ forall ml, candidate data window_size max_length i j ml -> ml <= bl0)
  \/ (exists ml, b = (ml, i - j) /\ bl0 < ml
                 /\ candidate data window_size max_length i j ml).
Proof.
  unfold Encoder.scan_body, candidate. intros H Hbl.
  destruct (Z.leb_spec (i - j) 0) as [Hd|Hd]; simpl in H.
  { inversion H; subst. left. split; [reflexivity|]. intros ml [? _]. lia. }
  destruct (Z.gtb_spec (i - j) window_size) as [Hw|Hw].
  { inversion H; subst. left. split; [reflexivity|]. intros ml [? _]. lia. }
  destruct (Encoder.match_length data max_length i j) as [r|] eqn:E;
    [|discriminate].
  destruct (Z.gtb_spec r bl0) as [Hr|Hr], (Z.ltb_spec (i + r) n) as [Hn|Hn];
    simpl in H; inversion H; subst.
  - right. exists r. repeat split; try lia.
    apply eligible_some. repeat split; [assumption | lia | assumption].
  - left. split; [reflexivity|]. intros ml [_ He].
    apply eligible_some in He. destruct He as (He & _ & ?).
    rewrite E in He. inversion He; subst. lia.
  - left. split; [reflexivity|]. intros ml [_ He].
    apply eligible_some in He. destruct He as (He & _ & ?).
    rewrite E in He. inversion He; subst. lia.
  - left. split; [reflexivity|]. intros ml [_ He].
    apply eligible_some in He. destruct He as (He & _ & ?).
    rewrite E in He. inversion He; subst. lia.
Qed.

Lemma candidate_functional i j ml ml' :
  candidate data window_size max_length i j ml ->
  candidate data window_size max_length i j ml' -> ml = ml'.
Proof. intros [_ H] [_ H']. rewrite H in H'. now inversion H'. Qed.

(** The whole scan over increasing starts: either no candidate beats the
    initial best, or the result is the first of the longest candidates. *)
Lemma scan_spec i js : StronglySorted Z.lt js ->
  forall bl0 bd0 bl bd,
  0 <= bl0 ->
  scan i js (bl0, bd0) = Some (bl, bd) ->
  ((bl, bd) = (bl0, bd0)
   /\ forall j ml, In j js ->
        candidate data window_size max_length i j ml -> ml <= bl0)
  \/ (bl0 < bl
      /\ exists j, In j js /\ bd = i - j
           /\ candidate data window_size max_length i j bl
           /\ forall j' ml', In j' js ->
                candidate data window_size max_length i j' ml' ->
                ml' <= bl /\ (ml' = bl -> j <= j')).
Proof.
  induction 1 as [|j js Hs IH Hlt]; intros bl0 bd0 bl bd Hbl H;
    cbn [Encoder.scan] in H.
  - inversion H; subst. left. split; [reflexivity|]. intros j ml [].
  - rewrite Forall_forall in Hlt.
    destruct (Encoder.scan_body data window_size max_length i (bl0, bd0) j)
      as [b|] eqn:E; [|discriminate H].
    destruct (scan_body_spec i bl0 bd0 j b E Hbl)
      as [[-> Hno] | (ml & -> & Hml & Hc)].
    + destruct (IH bl0 bd0 bl bd Hbl H)
        as [[Heq Hall] | (Hgt & j0 & Hin & Hbd & Hc0 & Hall)].
      * left. split; [assumption|].
        intros j' ml' [<-|Hin]; [apply Hno | apply Hall; assumption].
      * right. split; [assumption|]. exists j0.
        split; [right; assumption|]. split; [assumption|].
        split; [assumption|].
        intros j' ml' [<-|Hin'] Hc'; [|apply Hall; assumption].
        specialize (Hno ml' Hc'). split; lia.
    + destruct (IH ml (i - j) bl bd ltac:(lia) H)
        as [[Heq Hall] | (Hgt & j0 & Hin & Hbd & Hc0 & Hall)].
      * inversion Heq; subst. right. split; [assumption|]. exists j.
        split; [left; reflexivity|]. split; [reflexivity|].
        split; [assumption|].
        intros j' ml' [<-|Hin'] Hc'.
        -- rewrite (candidate_functional _ _ _ _ Hc' Hc). split; lia.
        -- split; [apply (Hall j'); assumption|].
           intros _. specialize (Hlt j' Hin'). lia.
      * right. split; [lia|]. exists j0.
        split; [right; assumption|]. split; [assumption|].
        split; [assumption|].
        intros j' ml' [<-|Hin'] Hc'; [|apply Hall; assumption].
        rewrite (candidate_functional _ _ _ _ Hc' Hc). split; lia.
Qed.

(** ** The best match at a position *)

Lemma find_best_total i : exists b, find_best i = Some b.
Proof. apply scan_total. Qed.

Lemma find_best_spec i bl bd :
  find_best i = Some (bl, bd) ->
  (bl = 0 /\ bd = 0
   /\ forall j ml, start window_size i <= j < i ->
        ~ candidate data window_size max_length i j ml)
  \/ (0 < bl
      /\ start window_size i <= i - bd < i
      /\ candidate data window_size max_length i (i - bd) bl
      /\ forall j ml, start window_size i <= j < i ->
           candidate data window_size max_length i j ml ->
           ml <= bl /\ (ml = bl -> i - j <= bd)).
Proof.
  intros H.
  destruct (scan_spec i _ (range_sorted (start window_size i) i)
                      0 0 bl bd ltac:(lia) H)
    as [[Heq Hall] | (Hgt & j0 & Hin & Hbd & Hc0 & Hall)].
  - inversion Heq; subst. left. split; [reflexivity|]. split; [reflexivity|].
    intros j ml Hj Hc.
    assert (ml <= 0) by (apply (Hall j); [apply in_range|]; assumption).
    destruct Hc as [_ Hc]. apply eligible_some in Hc. lia.
  - right. apply in_range in Hin. subst bd.
    replace (i - (i - j0)) with j0 by lia.
    split; [assumption|]. split; [lia|]. split; [assumption|].
    intros j ml Hj Hc.
    destruct (Hall j ml) as [H1 H2]; [apply in_range|..]; try assumption.
    split; [assumption|]. intros Heq. specialize (H2 Heq). lia.
Qed.

(** ** The token emitted at a position *)

Lemma emit_total i : exists tok i', emit i = Some (tok, i').
Proof.
  unfold Encoder.emit. destruct (find_best_total i) as [[bl bd] ->].
  destruct (bl >? 0); eexists; eexists; reflexivity.
Qed.

Lemma emit_spec i tok i' :
  emit i = Some (tok, i') ->
  exists bl bd,
    find_best i = Some (bl, bd)
    /\ ((0 < bl
         /\ tok = (bd, bl, Py.int_of_byte (Py.byte_at data (i + bl)))
         /\ i' = i + (bl + 1))
        \/ (bl <= 0
            /\ tok = (0, 0, Py.int_of_byte (Py.byte_at data i))
            /\ i' = i + 1)).
Proof.
  unfold Encoder.emit.
  destruct (Encoder.find_best data window_size max_length i)
    as [[bl bd]|]; [|discriminate].
  intros H. exists bl, bd. split; [reflexivity|].
  destruct (Z.gtb_spec bl 0); inversion H; subst; [left|right];
    repeat split; lia.
Qed.

Lemma emit_advances i tok i' : emit i = Some (tok, i') -> i < i'.
Proof.
  intros H. destruct (emit_spec i tok i' H) as (bl & bd & _ & [H1|H1]); lia.
Qed.

Lemma emit_valid i tok i' :
  0 <= window_size -> 0 <= max_length ->
  emit i = Some (tok, i') ->
  valid_token window_size max_length tok.
Proof.
  intros Hw Hm H.
  destruct (emit_spec i tok i' H) as (bl & bd & Hf & [H1|H1]).
  - destruct H1 as (Hbl & -> & _).
    destruct (find_best_spec i bl bd Hf)
      as [(? & _) | (_ & Hr & [Hd He] & _)]; [lia|].
    apply eligible_some in He. destruct He as (He & _ & _).
    destruct (match_length_pos i (i - bd) bl He Hbl) as (? & _).
    unfold valid_token, tok_distance, tok_length. simpl. lia.
  - destruct H1 as (_ & -> & _).
    unfold valid_token, tok_distance, tok_length. simpl. lia.
Qed.

(** ** The outer [while] *)

Lemma compress_loop_total fuel : forall i,
  n - i <= Z.of_nat fuel -> exists toks, compress_loop fuel i = Some toks.
Proof.
  induction fuel as [|fuel IH]; intros i Hf; simpl.
  - destruct (Z.ltb_spec i n); [lia | eexists; reflexivity].
  - destruct (Z.ltb_spec i n); [|eexists; reflexivity].
    destruct (emit_total i) as (tok & i' & E). rewrite E.
    apply emit_advances in E.
    destruct (IH i' ltac:(lia)) as [toks ->]. eexists; reflexivity.
Qed.

Lemma compress_loop_valid fuel : forall i toks,
  0 <= window_size -> 0 <= max_length ->
  compress_loop fuel i = Some toks ->
  Forall (valid_token window_size max_length) toks.
Proof.
  induction fuel as [|fuel IH]; intros i toks Hw Hm H; simpl in H.
  - destruct (i <? n); [discriminate|]. inversion H. constructor.
  - destruct (i <? n); [|inversion H; constructor].
    destruct (Encoder.emit data window_size max_length i)
      as [[tok i']|] eqn:E; [|discriminate].
    destruct (Encoder.compress_loop data window_size max_length fuel i')
      as [toks'|] eqn:E'; [|discriminate].
    inversion H; subst. constructor.
    + exact (emit_valid i tok i' Hw Hm E).
    + exact (IH i' toks' Hw Hm E').
Qed.

(** What a token emitted at position [i] is: a lone literal, or a match
    that lies in the window, ends before [i], repeats the bytes at [i] and
    leaves a byte for its literal. *)
Lemma emit_cases i tok i' :
  0 <= i ->
  emit i = Some (tok, i') ->
  (tok = (0, 0, Py.int_of_byte (Py.byte_at data i)) /\ i' = i + 1)
  \/ (exists d l,
         tok = (d, l, Py.int_of_byte (Py.byte_at data (i + l)))
         /\ i' = i + (l + 1)
         /\ 1 <= d <= window_size /\ d <= i
         /\ 1 <= l <= d /\ l <= max_length /\ i + l < n
         /\ forall k, 0 <= k < l ->
              Py.byte_at data (i - d + k) = Py.byte_at data (i + k)).
Proof.
  intros Hi H.
  destruct (emit_spec i tok i' H) as (bl & bd & Hf & [H1|H1]).
  - destruct H1 as (Hbl & -> & ->). right. exists bd, bl.
    destruct (find_best_spec i bl bd Hf)
      as [(? & _) | (_ & Hr & [Hd He] & _)]; [lia|].
    apply eligible_some in He. destruct He as (He & _ & Hn).
    destruct (match_length_pos i (i - bd) bl He Hbl) as (Hm & Hj & _ & Heq).
    unfold start in Hr.
    repeat split; try assumption; try lia.
  - destruct H1 as (_ & -> & ->). left. split; reflexivity.
Qed.

End Facts.

(** C7 (encoder token validity).  For every byte sequence and every
    [window_size >= 1], [max_length >= 1], the compressor returns a token
    sequence, and each of its tokens has [distance == 0] exactly when
    [length == 0], [distance <= window_size] and [length <= max_length];
    the empty byte sequence compresses to the empty token sequence. *)
Theorem compress_tokens_valid data window_size max_length :
  1 <= window_size -> 1 <= max_length ->
  (exists tokens,
      compress data window_size max_length = Some tokens
      /\ Forall (valid_token window_size max_length) tokens)
  /\ compress [] window_size max_length = Some [].
Proof.
  intros Hw Hm. split; [|reflexivity].
  destruct (compress_loop_total data window_size max_length (length data) 0)
    as [toks E]; [unfold n, Py.len; lia|].
  exists toks. split; [exact E|].
  apply (compress_loop_valid data window_size max_length (length data) 0);
    [lia | lia | exact E].
Qed.

Lemma compress_tokens_valid_witness :
  exists tokens,
    compress ["1"; "0"; "1"; "0"; "A"; "B"; "A"; "B"; "X"]%byte 16 15
    = Some tokens
    /\ Forall (valid_token 16 15) tokens.
Proof.
  apply (compress_tokens_valid
           ["1"; "0"; "1"; "0"; "A"; "B"; "A"; "B"; "X"]%byte 16 15); lia.
Defined.

(** C2, as the specification states it, fails: at position 4 of [AXAYAZ]
    the starts 0 and 2 both give a match of the maximal length 1, and the
    token emitted has distance 4, not the smaller distance 2. *)
Lemma smallest_distance_does_not_win :
  ~ smallest_distance_wins
      ["A"; "X"; "A"; "Y"; "A"; "Z"]%byte 16 15 4
  /\ compress ["A"; "X"; "A"; "Y"; "A"; "Z"]%byte 16 15
     = Some [(0, 0, 65); (0, 0, 88); (2, 1, 89); (4, 1, 90)].
Proof.
  split; [|reflexivity].
  intros H.
  specialize (H (4, 1, 90) 6 2 1 eq_refl).
  assert (Hd : tok_distance (4, 1, 90) <= 4 - 2).
  { apply H.
    - unfold start. lia.
    - split; [lia | reflexivity].
    - intros j' ml' Hj [_ Hc]. unfold start in Hj.
      assert (Hcases : j' = 0 \/ j' = 1 \/ j' = 2 \/ j' = 3) by lia.
      destruct Hcases as [-> | [-> | [-> | ->]]]; vm_compute in Hc;
        inversion Hc; lia. }
  unfold tok_distance in Hd. simpl in Hd. lia.
Qed.

(** C2, amended.  The scan takes a new best only on a strictly greater
    length and visits the starts in increasing order, so the first of the
    longest candidates is kept: when the candidates at position [i] reach
    the maximal length [match_len], the token emitted has that length and
    the largest distance among the candidates of that length. *)
Theorem first_found_wins_ties data window_size max_length i j match_len :
  start window_size i <= j < i ->
  candidate data window_size max_length i j match_len ->
  (forall j' ml', start window_size i <= j' < i ->
     candidate data window_size max_length i j' ml' -> ml' <= match_len) ->
  exists tok i',
    emit data window_size max_length i = Some (tok, i')
    /\ tok_length tok = match_len
    /\ i - j <= tok_distance tok
    /\ start window_size i <= i - tok_distance tok < i
    /\ candidate data window_size max_length i (i - tok_distance tok)
                 match_len.
Proof.
  intros Hj Hc Hmax.
  destruct (emit_total data window_size max_length i) as (tok & i' & E).
  exists tok, i'. split; [exact E|].
  destruct (emit_spec _ _ _ _ _ _ E) as (bl & bd & Hf & Hcase).
  destruct (find_best_spec _ _ _ _ _ _ Hf)
    as [(_ & _ & Hnone) | (Hbl & Hr & Hc0 & Hall)].
  { exfalso. exact (Hnone j match_len Hj Hc). }
  destruct Hcase as [(_ & -> & _) | (? & _)]; [|lia].
  unfold tok_length, tok_distance. simpl.
  destruct (Hall j match_len Hj Hc) as [Hle Htie].
  assert (Heq : bl = match_len).
  { specialize (Hmax (i - bd) bl Hr Hc0). lia. }
  subst bl. split; [reflexivity|]. split; [apply Htie; reflexivity|].
  split; assumption.
Qed.

Lemma first_found_wins_ties_witness :
  exists tok i',
    emit ["A"; "X"; "A"; "Y"; "A"; "Z"]%byte 16 15 4 = Some (tok, i')
    /\ tok_length tok = 1
    /\ 4 - 2 <= tok_distance tok
    /\ start 16 4 <= 4 - tok_distance tok < 4
    /\ candidate ["A"; "X"; "A"; "Y"; "A"; "Z"]%byte 16 15 4
                 (4 - tok_distance tok) 1.
Proof.
  apply (first_found_wins_ties ["A"; "X"; "A"; "Y"; "A"; "Z"]%byte 16 15 4 2 1).
  - unfold start. lia.
  - split; [lia | reflexivity].
  - intros j' ml' Hj [_ Hc]. unfold start in Hj.
    assert (Hcases : j' = 0 \/ j' = 1 \/ j' = 2 \/ j' = 3) by lia.
    destruct Hcases as [-> | [-> | [-> | ->]]]; vm_compute in Hc;
      inversion Hc; lia.
Defined.

End EncoderFacts.

(** * The encoder against the decoder *)

Module GoldenModel.
Import Encoder Decoder EncoderFacts DecoderFacts.

(** ** Bytes and integers *)

Lemma byte_of_int_of_byte b : Py.byte_of_int (Py.int_of_byte b) = Some b.
Proof.
  unfold Py.byte_of_int, Py.int_of_byte.
  destruct (Z.ltb_spec (Z.of_N (Byte.to_N b)) 0); [lia|].
  rewrite N2Z.id. apply Byte.of_to_N.
Qed.

Lemma bytes_of_ints bs : Py.bytes (map Py.int_of_byte bs) = Some bs.
Proof.
  induction bs as [|b bs IH]; simpl; [reflexivity|].
  now rewrite byte_of_int_of_byte, IH.
Qed.

(** A list of integers taken from [data] converts to bytes of [data]. *)
Lemma bytes_drawn_from data out :
  Forall (fun z => In z (map Py.int_of_byte data)) out ->
  exists bs, Py.bytes out = Some bs
             /\ length bs = length out
             /\ Forall (fun b => In b data) bs.
Proof.
  induction 1 as [|z out Hz Hout (bs & Hbs & Hlen & Hall)]; simpl.
  - exists []. repeat split. constructor.
  - apply in_map_iff in Hz. destruct Hz as (b & <- & Hb).
    rewrite byte_of_int_of_byte, Hbs. exists (b :: bs).
    split; [reflexivity|]. split; [simpl; congruence|].
    constructor; assumption.
Qed.

Lemma nth_error_ints data x :
  0 <= x < Py.len data ->
  nth_error (map Py.int_of_byte data) (Z.to_nat x)
  = Some (Py.int_of_byte (Py.byte_at data x)).
Proof.
  intros Hx. rewrite nth_error_map. unfold Py.byte_at.
  rewrite (nth_error_nth' data x00); [reflexivity|].
  unfold Py.len in Hx. lia.
Qed.

Lemma firstn_snoc {A : Type} (l : list A) a x :
  nth_error l a = Some x -> firstn (S a) l = firstn a l ++ [x].
Proof.
  revert l. induction a as [|a IH]; intros [|y l] H; simpl in H;
    try discriminate.
  - inversion H; reflexivity.
  - simpl. f_equal. apply IH. exact H.
Qed.

(** ** What the copy loop keeps *)

Lemma index_in {A : Type} (l : list A) x b : Py.index l x = Some b -> In b l.
Proof.
  unfold Py.index. destruct (_ || _); [discriminate|]. apply nth_error_In.
Qed.

Lemma hist_in_out w st b : windowed w st -> In b (hist st) -> In b (out_full st).
Proof.
  unfold windowed, lastn. intros -> Hin.
  rewrite <- (firstn_skipn (length (out_full st) - Z.to_nat w) (out_full st)).
  apply in_or_app. right. exact Hin.
Qed.

Lemma copy_loop_output w start cnt (Q : Z -> Prop) : 1 <= w ->
  forall k st st',
    windowed w st ->
    copy_loop w start cnt k st = Ok st' ->
    windowed w st'
    /\ Py.len (out_full st') = Py.len (out_full st) + Z.of_nat cnt
    /\ (Forall Q (out_full st) -> Forall Q (out_full st')).
Proof.
  intros Hw. induction cnt as [|cnt IH]; intros k st st' Hst H; simpl in H.
  - inversion H; subst. split; [assumption|]. split; [lia|auto].
  - destruct (Py.index (hist st) (start + k)) as [b|] eqn:E; [|discriminate].
    destruct (IH _ _ _ (windowed_push w b st Hw Hst) H) as (H1 & H2 & H3).
    split; [assumption|]. split.
    + rewrite H2, truncate_out. simpl. rewrite len_app.
      unfold Py.len. simpl. lia.
    + intros HQ. apply H3. rewrite truncate_out. simpl.
      apply Forall_app. split; [assumption|]. constructor; [|constructor].
      rewrite Forall_forall in HQ. apply HQ.
      apply (hist_in_out w); [assumption|]. exact (index_in _ _ _ E).
Qed.

(** ** Decoding what the encoder emits *)

Section Decode.

Variable data : list byte.
Variables enc_window max_length : Z.

(** The decoder's window, which may differ from the encoder's: it is at
    least as large, or large enough for the whole input. *)
Variable window_size : Z.
Hypothesis window_pos : 1 <= window_size.
Hypothesis window_fits :
  enc_window <= window_size \/ n data <= window_size + 2.

#[local] Abbreviation ints := (map Py.int_of_byte data).
#[local] Abbreviation drawn := (Forall (fun z => In z (map Py.int_of_byte data))).

Lemma len_hist_windowed st :
  windowed window_size st ->
  Py.len (hist st) = Z.min (Py.len (out_full st)) window_size.
Proof.
  intros ->. unfold Py.len. rewrite lastn_length. lia.
Qed.

(** While the window is not yet exceeded, the history is the whole output
    and the copy loop re-reads the data exactly. *)
Lemma copy_loop_exact i d cnt :
  0 <= i -> 1 <= d <= i ->
  forall k st,
    0 <= k ->
    windowed window_size st ->
    out_full st = firstn (Z.to_nat (i + k)) ints ->
    i + k + Z.of_nat cnt <= window_size + 1 ->
    i + k + Z.of_nat cnt <= n data ->
    (forall k', k <= k' < k + Z.of_nat cnt ->
       Py.byte_at data (i - d + k') = Py.byte_at data (i + k')) ->
    exists st',
      copy_loop window_size (i - d) cnt k st = Ok st'
      /\ out_full st' = firstn (Z.to_nat (i + k + Z.of_nat cnt)) ints.
Proof.
  intros Hi Hd. induction cnt as [|cnt IH]; intros k st Hk Hst Hout Hw Hn Heq.
  - exists st. split; [reflexivity|]. rewrite Hout. f_equal. lia.
  - assert (Hlen : length (out_full st) = Z.to_nat (i + k)).
    { rewrite Hout, length_firstn, length_map. unfold n, Py.len in Hn. lia. }
    assert (Hh : hist st = out_full st).
    { rewrite Hst. apply lastn_all. lia. }
    assert (Hread : Py.index (hist st) (i - d + k)
                    = Some (Py.int_of_byte (Py.byte_at data (i + k)))).
    { destruct (index_in_bounds (hist st) (i - d + k)) as [-> _].
      { rewrite Hh. unfold Py.len. lia. }
      rewrite Hh, Hout, nth_error_firstn.
      destruct (Nat.ltb_spec (Z.to_nat (i - d + k)) (Z.to_nat (i + k))); [|lia].
      rewrite nth_error_ints by (unfold n in Hn; lia).
      rewrite Heq by lia. reflexivity. }
    cbn [copy_loop]. rewrite Hread.
    set (b := Py.int_of_byte (Py.byte_at data (i + k))).
    destruct (IH (k + 1) (truncate window_size (append b st))) as (st' & Hc & Ho).
    + lia.
    + apply windowed_push; assumption.
    + rewrite truncate_out. simpl. rewrite Hout.
      replace (Z.to_nat (i + (k + 1))) with (S (Z.to_nat (i + k))) by lia.
      symmetry. apply firstn_snoc. apply nth_error_ints. unfold n in Hn. lia.
    + lia.
    + lia.
    + intros k' Hk'. apply Heq. lia.
    + exists st'. split; [exact Hc|]. rewrite Ho. f_equal. lia.
Qed.

(** One token of the encoder, decoded from a state that holds [i] bytes. *)
Lemma decode_emitted i tok i' st :
  0 <= i < n data ->
  emit data enc_window max_length i = Some (tok, i') ->
  windowed window_size st ->
  Py.len (out_full st) = i ->
  exists st',
    step window_size st tok = Ok st'
    /\ windowed window_size st'
    /\ Py.len (out_full st') = i'
    /\ i < i' <= n data
    /\ (drawn (out_full st) -> drawn (out_full st'))
    /\ (n data <= window_size + 2 ->
        out_full st = firstn (Z.to_nat i) ints ->
        out_full st' = firstn (Z.to_nat i') ints).
Proof.
  intros Hi He Hst Hlen.
  destruct (emit_cases data enc_window max_length i tok i' ltac:(lia) He)
    as [[-> ->] | (d & l & -> & -> & Hd & Hdi & Hl & Hm & Hn & Heq)].
  - (* a lone literal *)
    set (b := Py.int_of_byte (Py.byte_at data i)).
    exists (truncate window_size (append b st)).
    split; [reflexivity|].
    split; [apply windowed_push; assumption|].
    split; [rewrite truncate_out; simpl; rewrite len_app, Hlen; reflexivity|].
    split; [lia|]. split.
    + intros HQ. rewrite truncate_out. simpl.
      apply Forall_app. split; [assumption|]. constructor; [|constructor].
      apply (nth_error_In _ (Z.to_nat i)). apply nth_error_ints.
      unfold n in Hi. lia.
    + intros _ Hout. rewrite truncate_out. simpl. rewrite Hout.
      replace (Z.to_nat (i + 1)) with (S (Z.to_nat i)) by lia.
      symmetry. apply firstn_snoc. apply nth_error_ints. unfold n in Hi. lia.
  - (* a match *)
    pose proof (len_hist_windowed st Hst) as HL. rewrite Hlen in HL.
    unfold step, back_reference.
    destruct (Z.eqb_spec l 0); [lia|].
    destruct (Z.eqb_spec d 0); [lia|].
    destruct (Z.gtb_spec d (Py.len (hist st))); [lia|].
    destruct (copy_loop_in_bounds window_size (Py.len (hist st)) d
                (Z.to_nat l) window_pos ltac:(lia) 0 st)
      as [st1 Hc]; [lia | lia | lia|].
    rewrite Hc. cbn [bind].
    destruct (copy_loop_output window_size _ _ (fun z => In z ints)
                window_pos 0 st st1 Hst Hc) as (Hw1 & Hlen1 & HQ1).
    set (b := Py.int_of_byte (Py.byte_at data (i + l))).
    exists (truncate window_size (append b st1)).
    split; [reflexivity|].
    split; [apply windowed_push; assumption|].
    split; [rewrite truncate_out; simpl; rewrite len_app, Hlen1, Hlen;
            unfold Py.len; simpl; lia|].
    split; [lia|]. split.
    + intros HQ. rewrite truncate_out. simpl.
      apply Forall_app. split; [apply HQ1; assumption|].
      constructor; [|constructor].
      apply (nth_error_In _ (Z.to_nat (i + l))). apply nth_error_ints.
      unfold n in Hn. lia.
    + intros Hshort Hout.
      assert (Hstart : Py.len (hist st) - d = i - d) by lia.
      rewrite Hstart in Hc.
      destruct (copy_loop_exact i d (Z.to_nat l) ltac:(lia) ltac:(lia) 0 st)
        as (st1' & Hc' & Hout1); try lia.
      * assumption.
      * rewrite Hout. f_equal. lia.
      * intros k' Hk'. apply Heq. lia.
      * rewrite Hc in Hc'. inversion Hc'; subst st1'.
        rewrite truncate_out. simpl. rewrite Hout1.
        replace (i + 0 + Z.of_nat (Z.to_nat l)) with (i + l) by lia.
        replace (Z.to_nat (i + (l + 1))) with (S (Z.to_nat (i + l))) by lia.
        symmetry. apply firstn_snoc. apply nth_error_ints.
        unfold n in Hn. lia.
Qed.

(** The tokens emitted from position [i] on, decoded from a state that
    holds [i] bytes. *)
Lemma decode_compress_loop fuel : forall i toks st,
  0 <= i <= n data ->
  compress_loop data enc_window max_length fuel i = Some toks ->
  windowed window_size st ->
  Py.len (out_full st) = i ->
  exists st',
    run window_size toks st = Ok st'
    /\ Py.len (out_full st') = n data
    /\ (drawn (out_full st) -> drawn (out_full st'))
    /\ (n data <= window_size + 2 ->
        out_full st = firstn (Z.to_nat i) ints ->
        out_full st' = ints).
Proof.
  induction fuel as [|fuel IH]; intros i toks st Hi H Hst Hlen; simpl in H.
  - destruct (Z.ltb_spec i (n data)); [discriminate|]. inversion H; subst.
    exists st. split; [reflexivity|]. split; [lia|]. split; [auto|].
    intros _ ->. apply firstn_all2. rewrite length_map.
    unfold n, Py.len in *. lia.
  - destruct (Z.ltb_spec i (n data)) as [Hlt|Hge].
    + destruct (emit data enc_window max_length i) as [[tok i']|] eqn:E;
        [|discriminate].
      destruct (compress_loop data enc_window max_length fuel i')
        as [toks'|] eqn:E'; [|discriminate].
      inversion H; subst toks.
      destruct (decode_emitted i tok i' st ltac:(lia) E Hst Hlen)
        as (st1 & Hs & Hw1 & Hlen1 & Hi' & HQ1 & Hx1).
      destruct (IH i' toks' st1 ltac:(lia) E' Hw1 Hlen1)
        as (st' & Hr & Hlen' & HQ' & Hx').
      exists st'. cbn [run]. rewrite Hs. cbn [bind].
      split; [exact Hr|]. split; [exact Hlen'|]. split; [auto|].
      intros Hshort Hout. apply Hx'; [assumption|]. apply Hx1; assumption.
    + inversion H; subst.
      exists st. split; [reflexivity|]. split; [lia|]. split; [auto|].
      intros _ ->. apply firstn_all2. rewrite length_map.
      unfold n, Py.len in *. lia.
Qed.

End Decode.

(** The decoder never fails on what the encoder produces: it returns as
    many bytes as the input has, each of them a byte of the input. *)
Theorem decode_compress_shape data window_size max_length :
  1 <= window_size ->
  exists tokens bs,
    compress data window_size max_length = Some tokens
    /\ decompress_stream tokens window_size = Ok bs
    /\ length bs = length data
    /\ Forall (fun b => In b data) bs.
Proof.
  intros Hw.
  destruct (compress_loop_total data window_size max_length (length data) 0)
    as [toks E]; [unfold n, Py.len; lia|].
  destruct (decode_compress_loop data window_size max_length window_size Hw
              (or_introl (Z.le_refl _)) (length data) 0 toks init)
    as (st' & Hr & Hlen & HQ & _);
    [pose proof (len_nonneg data); unfold n; lia | exact E | reflexivity
     | reflexivity |].
  destruct (bytes_drawn_from data (out_full st') (HQ (Forall_nil _)))
    as (bs & Hbs & Hl & Hall).
  exists toks, bs. split; [exact E|].
  unfold decompress_stream. rewrite Hr. cbn [bind]. rewrite Hbs.
  split; [reflexivity|]. split; [|exact Hall].
  unfold n, Py.len in Hlen. lia.
Qed.

(** The round trip holds as long as the input is at most two bytes longer
    than the window: the history is then never cut before a read. *)
Theorem round_trip_within_window data window_size max_length :
  1 <= window_size ->
  Py.len data <= window_size + 2 ->
  round_trip data window_size max_length.
Proof.
  intros Hw Hshort.
  destruct (compress_loop_total data window_size max_length (length data) 0)
    as [toks E]; [unfold n, Py.len; lia|].
  destruct (decode_compress_loop data window_size max_length window_size Hw
              (or_introl (Z.le_refl _)) (length data) 0 toks init)
    as (st' & Hr & _ & _ & Hx);
    [pose proof (len_nonneg data); unfold n; lia | exact E | reflexivity
     | reflexivity |].
  exists toks. split; [exact E|].
  unfold decompress_stream. rewrite Hr. cbn [bind].
  rewrite (Hx Hshort eq_refl). now rewrite bytes_of_ints.
Qed.

(** Scenario 3: for every window of one byte or more (and every maximal
    length), eight ['A'] bytes come back as eight ['A'] bytes. *)
Theorem run_of_eight_round_trips window_size max_length :
  1 <= window_size ->
  round_trip (repeat "A"%byte 8) window_size max_length.
Proof.
  intros Hw.
  destruct (decode_compress_shape (repeat "A"%byte 8) window_size max_length Hw)
    as (toks & bs & Hc & Hd & Hlen & Hall).
  exists toks. split; [exact Hc|]. rewrite Hd. f_equal.
  rewrite Forall_forall in Hall.
  assert (Hbs : forall b, In b bs -> b = "A"%byte).
  { intros b Hb. exact (repeat_spec _ _ _ (Hall b Hb)). }
  rewrite repeat_length in Hlen.
  do 9 (destruct bs as [|? bs]; [discriminate Hlen || idtac|]);
    [|simpl in Hlen; lia].
  repeat match goal with
         | b : byte |- _ =>
             assert (b = "A"%byte) by (apply Hbs; simpl; tauto); subst b
         end.
  reflexivity.
Qed.

(** ** A decoder window other than the encoder's *)

(** X12 (the encoder is right for every configuration).  Whatever
    [window_size] and [max_length] the encoder is given, its tokens decode
    back to the input as soon as the decoder's window is at least
    [len(data) - 2]: the history is then never cut before a read. *)
Theorem round_trip_with_wide_decoder data enc_window max_length window_size :
  1 <= window_size ->
  Py.len data <= window_size + 2 ->
  exists tokens,
    compress data enc_window max_length = Some tokens
    /\ decompress_stream tokens window_size = Ok data.
Proof.
  intros Hw Hshort.
  destruct (compress_loop_total data enc_window max_length (length data) 0)
    as [toks E]; [unfold n, Py.len; lia|].
  destruct (decode_compress_loop data enc_window max_length window_size Hw
              (or_intror Hshort) (length data) 0 toks init)
    as (st' & Hr & _ & _ & Hx);
    [pose proof (len_nonneg data); unfold n; lia | exact E | reflexivity
     | reflexivity |].
  exists toks. split; [exact E|].
  unfold decompress_stream. rewrite Hr. cbn [bind].
  rewrite (Hx Hshort eq_refl). now rewrite bytes_of_ints.
Qed.

Lemma round_trip_with_wide_decoder_witness :
  exists tokens,
    compress ["A"; "B"; "A"; "B"; "C"]%byte 2 15 = Some tokens
    /\ decompress_stream tokens 3 = Ok ["A"; "B"; "A"; "B"; "C"]%byte.
Proof.
  apply (round_trip_with_wide_decoder ["A"; "B"; "A"; "B"; "C"]%byte 2 15 3).
  - lia.
  - vm_compute. discriminate.
Defined.

(** X13 (the decoder accepts what the encoder emits).  When the decoder's
    window is at least the encoder's, [decompress_stream] raises nothing on
    the tokens of [compress]: it returns [len(data)] bytes, each of them a
    byte that occurs in [data]. *)
Theorem decoder_accepts_encoder_output data enc_window max_length window_size :
  1 <= window_size ->
  enc_window <= window_size ->
  exists tokens bs,
    compress data enc_window max_length = Some tokens
    /\ decompress_stream tokens window_size = Ok bs
    /\ length bs = length data
    /\ Forall (fun b => In b data) bs.
Proof.
  intros Hw Hle.
  destruct (compress_loop_total data enc_window max_length (length data) 0)
    as [toks E]; [unfold n, Py.len; lia|].
  destruct (decode_compress_loop data enc_window max_length window_size Hw
              (or_introl Hle) (length data) 0 toks init)
    as (st' & Hr & Hlen & HQ & _);
    [pose proof (len_nonneg data); unfold n; lia | exact E | reflexivity
     | reflexivity |].
  destruct (bytes_drawn_from data (out_full st') (HQ (Forall_nil _)))
    as (bs & Hbs & Hl & Hall).
  exists toks, bs. split; [exact E|].
  unfold decompress_stream. rewrite Hr. cbn [bind]. rewrite Hbs.
  split; [reflexivity|]. split; [|exact Hall].
  unfold n, Py.len in Hlen. lia.
Qed.

Lemma decoder_accepts_encoder_output_witness :
  exists tokens bs,
    compress ["A"; "B"; "A"; "B"; "C"]%byte 2 15 = Some tokens
    /\ decompress_stream tokens 2 = Ok bs
    /\ length bs = 5%nat
    /\ Forall (fun b => In b ["A"; "B"; "A"; "B"; "C"]%byte) bs.
Proof.
  apply (decoder_accepts_encoder_output ["A"; "B"; "A"; "B"; "C"]%byte 2 15 2);
    lia.
Defined.

(** ** The decoder's defect: the history is cut inside the copy loop *)

(** C1 (round trip) fails on the code.  With [window_size = 2] the input
    [ABABC] compresses to two literals and the match (2, 2, 'C'); the
    decoder, whose history is full at that token, cuts the history after
    the first copied byte and reads the second one a place too far: it
    returns [ABAAC].  With the default configuration (window 16, length
    15) the nineteen bytes [0123456789ABCDEF01X] come back with ['2'] in
    the place of the second ['1']. *)
Theorem round_trip_fails_on_full_window :
  ~ round_trip ["A"; "B"; "A"; "B"; "C"]%byte 2 15
  /\ compress ["A"; "B"; "A"; "B"; "C"]%byte 2 15
     = Some [(0, 0, 65); (0, 0, 66); (2, 2, 67)]
  /\ decompress_stream [(0, 0, 65); (0, 0, 66); (2, 2, 67)] 2
     = Ok ["A"; "B"; "A"; "A"; "C"]%byte
  /\ ~ round_trip
       ["0"; "1"; "2"; "3"; "4"; "5"; "6"; "7"; "8"; "9";
        "A"; "B"; "C"; "D"; "E"; "F"; "0"; "1"; "X"]%byte 16 15.
Proof.
  split; [|split; [reflexivity|split; [reflexivity|]]].
  - intros (toks & Hc & Hd). vm_compute in Hc. inversion Hc; subst.
    vm_compute in Hd. discriminate Hd.
  - intros (toks & Hc & Hd). vm_compute in Hc. inversion Hc; subst.
    vm_compute in Hd. discriminate Hd.
Qed.

(** C4 (raises-iff) fails on the code.  None of the tokens
    (0,0,'A'), (0,0,'B'), (1,2,'C') has a zero distance or a distance
    beyond the history it meets, yet with [window_size = 2] the decoder
    does not return: the second read of the copy loop is out of range. *)
Theorem accepted_tokens_raise_index_error :
  let tokens := [(0, 0, 65); (0, 0, 66); (1, 2, 67)] in
  (forall pre tok post st,
      tokens = pre ++ tok :: post ->
      run 2 pre init = Ok st -> violates st tok = false)
  /\ decompress_stream tokens 2 = Raise IndexError.
Proof.
  intros tokens. split; [|reflexivity].
  intros pre tok post st Heq Hrun. unfold tokens in Heq.
  destruct pre as [|p1 [|p2 [|p3 [|p4 pre]]]]; simpl in Heq;
    inversion Heq; subst; vm_compute in Hrun; inversion Hrun; subst;
    reflexivity.
Qed.

(** C5 (overlapping copy) fails on the code.  After [ABC] with
    [window_size = 4], the token (3, 4, 'X') has [1 <= distance <= 3 =
    len(hist)] and [distance < length]; a self-extending run would give
    [ABCA], the decoder gives [ABAA]: the history is cut inside the loop
    and [start] is not moved with it. *)
Theorem overlapping_copy_misreads_after_cut :
  run 4 [(0, 0, 65); (0, 0, 66); (0, 0, 67)] init
  = Ok (mkState [65; 66; 67] [65; 66; 67])
  /\ step 4 (mkState [65; 66; 67] [65; 66; 67]) (3, 4, 88)
     = Ok (mkState [65; 66; 67; 65; 66; 65; 65; 88] [66; 65; 65; 88])
  /\ decompress_stream [(0, 0, 65); (0, 0, 66); (0, 0, 67); (3, 4, 88)] 4
     = Ok ["A"; "B"; "C"; "A"; "B"; "A"; "A"; "X"]%byte.
Proof. repeat split. Qed.

(** C10 (history reads in bounds) fails on the code.  With
    [window_size = 2] and the history [AB], the token (1, 2, 'C') passes
    the validation ([1 <= 1 <= 2]); [start] is 1, the first read gives
    ['B'], the history is cut back to two bytes, and the second read
    [hist[start + 1]] is [hist[2]] of a list of length 2. *)
Theorem validated_read_out_of_range :
  let st := mkState [65; 66] [65; 66] in
  run 2 [(0, 0, 65); (0, 0, 66)] init = Ok st
  /\ violates st (1, 2, 67) = false
  /\ Py.index (hist st) (Py.len (hist st) - 1 + 0) = Some 66
  /\ Py.index (hist (truncate 2 (append 66 st))) (Py.len (hist st) - 1 + 1)
     = None
  /\ step 2 st (1, 2, 67) = Raise IndexError.
Proof. repeat split. Qed.

End GoldenModel.

(** * More on the encoder *)

Module EncoderProps.
Import Encoder EncoderFacts.

Section Props.

Variable data : list byte.
Variables window_size max_length : Z.

#[local] Abbreviation emit := (emit data window_size max_length).
#[local] Abbreviation compress_loop := (compress_loop data window_size max_length).

(** A property of every token emitted at a position of the input holds of
    every token of the loop. *)
Lemma compress_loop_Forall (P : Token -> Prop) :
  (forall i tok i', 0 <= i < n data -> emit i = Some (tok, i') -> P tok) ->
  forall fuel i toks,
    0 <= i -> compress_loop fuel i = Some toks -> Forall P toks.
Proof.
  intros HP. induction fuel as [|fuel IH]; intros i toks Hi H; simpl in H.
  - destruct (i <? n data); [discriminate|]. inversion H. constructor.
  - destruct (Z.ltb_spec i (n data)); [|inversion H; constructor].
    destruct (Encoder.emit data window_size max_length i)
      as [[tok i']|] eqn:E; [|discriminate].
    destruct (Encoder.compress_loop data window_size max_length fuel i')
      as [toks'|] eqn:E'; [|discriminate].
    inversion H; subst. constructor.
    + apply (HP i tok i'); [lia | exact E].
    + apply (IH i'); [|exact E'].
      apply emit_advances in E. lia.
Qed.

Lemma emit_within i tok i' :
  0 <= i < n data -> emit i = Some (tok, i') ->
  i' = i + (tok_length tok + 1) /\ i < i' <= n data.
Proof.
  intros Hi H.
  destruct (emit_cases data window_size max_length i tok i' ltac:(lia) H)
    as [[-> ->] | (d & l & -> & -> & _ & _ & Hl & _ & Hn & _)];
    unfold tok_length; simpl; lia.
Qed.

Lemma compress_loop_consumes fuel : forall i toks,
  0 <= i <= n data ->
  compress_loop fuel i = Some toks ->
  consumed toks = n data - i.
Proof.
  induction fuel as [|fuel IH]; intros i toks Hi H; simpl in H.
  - destruct (Z.ltb_spec i (n data)); [discriminate|]. inversion H. simpl. lia.
  - destruct (Z.ltb_spec i (n data)); [|inversion H; simpl; lia].
    destruct (Encoder.emit data window_size max_length i)
      as [[tok i']|] eqn:E; [|discriminate].
    destruct (Encoder.compress_loop data window_size max_length fuel i')
      as [toks'|] eqn:E'; [|discriminate].
    inversion H; subst.
    destruct (emit_within i tok i' ltac:(lia) E) as [Hi' Hn].
    simpl. rewrite (IH i' toks' ltac:(lia) E'). lia.
Qed.

Lemma consumed_count toks :
  Forall (fun tok => 0 <= tok_length tok) toks ->
  Z.of_nat (length toks) <= consumed toks.
Proof.
  induction 1 as [|tok toks Htok _ IH]; simpl; lia.
Qed.

Lemma compress_loop_last fuel : forall i toks,
  0 <= i < n data ->
  compress_loop fuel i = Some toks ->
  exists tok, last toks (0, 0, 0) = tok
              /\ toks <> []
              /\ tok_literal tok
                 = Py.int_of_byte (Py.byte_at data (n data - 1)).
Proof.
  induction fuel as [|fuel IH]; intros i toks Hi H; simpl in H.
  - destruct (Z.ltb_spec i (n data)); [discriminate | lia].
  - destruct (Z.ltb_spec i (n data)); [|lia].
    destruct (Encoder.emit data window_size max_length i)
      as [[tok i']|] eqn:E; [|discriminate].
    destruct (Encoder.compress_loop data window_size max_length fuel i')
      as [toks'|] eqn:E'; [|discriminate].
    inversion H; subst.
    destruct (emit_within i tok i' ltac:(lia) E) as [Hi' Hn].
    destruct (Z.eq_dec i' (n data)) as [Heq|Hne].
    + assert (toks' = []).
      { destruct fuel; simpl in E'; destruct (Z.ltb_spec i' (n data));
          try lia; now inversion E'. }
      subst toks'. exists tok. split; [reflexivity|]. split; [discriminate|].
      destruct (emit_cases data window_size max_length i tok i' ltac:(lia) E)
        as [[-> ->] | (d & l & -> & -> & _)]; unfold tok_literal; simpl;
        do 2 f_equal; lia.
    + destruct (IH i' toks' ltac:(lia) E') as (t & Hlast & Hne' & Hlit).
      exists t. split; [|split; [discriminate | exact Hlit]].
      destruct toks' as [|t' toks']; [contradiction|]. exact Hlast.
Qed.

Lemma skipn_cons_nth {A : Type} (l : list A) : forall k d,
  (k < length l)%nat -> skipn k l = nth k l d :: skipn (S k) l.
Proof.
  induction l as [|x l IH]; intros k d Hk; simpl in Hk; [lia|].
  destruct k as [|k]; [reflexivity|].
  change (skipn k l = nth k l d :: skipn (S k) l). apply IH. lia.
Qed.

(** With no window or no length to match in, every position emits a lone
    literal. *)
Lemma emit_degenerate i :
  window_size <= 0 \/ max_length <= 0 ->
  emit i = Some ((0, 0, Py.int_of_byte (Py.byte_at data i)), i + 1).
Proof.
  intros Hdeg.
  destruct (emit_total data window_size max_length i) as (tok & i' & E).
  rewrite E.
  destruct (emit_spec data window_size max_length i tok i' E)
    as (bl & bd & Hf & [(Hbl & _) | (_ & -> & ->)]); [|reflexivity].
  exfalso.
  destruct (find_best_spec data window_size max_length i bl bd Hf)
    as [(? & _) | (_ & _ & [Hd He] & _)]; [lia|].
  apply eligible_some in He. destruct He as (He & _ & _).
  destruct (match_length_pos data max_length i (i - bd) bl He Hbl) as (? & _).
  lia.
Qed.

Lemma compress_loop_degenerate fuel :
  window_size <= 0 \/ max_length <= 0 ->
  forall i,
    0 <= i -> n data - i <= Z.of_nat fuel ->
    compress_loop fuel i
    = Some (map (fun b => (0, 0, Py.int_of_byte b)) (skipn (Z.to_nat i) data)).
Proof.
  intros Hdeg. induction fuel as [|fuel IH]; intros i Hi Hf; simpl.
  - destruct (Z.ltb_spec i (n data)); [lia|].
    rewrite skipn_all2 by (unfold n, Py.len in *; lia). reflexivity.
  - destruct (Z.ltb_spec i (n data)) as [Hlt|Hge].
    + rewrite (emit_degenerate i Hdeg), (IH (i + 1)) by lia.
      replace (Z.to_nat (i + 1)) with (S (Z.to_nat i)) by lia.
      assert (Hn : (Z.to_nat i < length data)%nat)
        by (unfold n, Py.len in Hlt; lia).
      rewrite (skipn_cons_nth data (Z.to_nat i) x00 Hn). reflexivity.
    + rewrite skipn_all2 by (unfold n, Py.len in *; lia). reflexivity.
Qed.

End Props.

Lemma int_of_byte_range b : 0 <= Py.int_of_byte b <= 255.
Proof.
  unfold Py.int_of_byte. pose proof (Byte.to_N_bounded b). lia.
Qed.

Lemma emit_shape data window_size max_length i tok i' :
  0 <= i < n data ->
  Encoder.emit data window_size max_length i = Some (tok, i') ->
  0 <= tok_length tok <= tok_distance tok
  /\ (tok_distance tok = 0 <-> tok_length tok = 0)
  /\ 0 <= tok_literal tok <= 255.
Proof.
  intros Hi H.
  destruct (emit_cases data window_size max_length i tok i' ltac:(lia) H)
    as [[-> ->] | (d & l & -> & -> & Hd & _ & Hl & _)];
    unfold tok_length, tok_distance, tok_literal; simpl;
    (split; [lia|]; split; [lia|]; apply int_of_byte_range).
Qed.

(** X1 (the tokens account for the input).  For every input and every
    configuration, the copy lengths and the literals of the tokens of
    [compress] add up to [len(data)]: every byte belongs to exactly one
    token, and there are at most [len(data)] tokens. *)
Theorem compress_accounts_for_input data window_size max_length :
  exists tokens,
    compress data window_size max_length = Some tokens
    /\ consumed tokens = Py.len data
    /\ Py.len tokens <= Py.len data.
Proof.
  destruct (compress_loop_total data window_size max_length (length data) 0)
    as [toks E]; [unfold n, Py.len; lia|].
  exists toks. split; [exact E|].
  assert (Hc : consumed toks = Py.len data).
  { rewrite (compress_loop_consumes data window_size max_length
               (length data) 0 toks); [unfold n; lia | | exact E].
    pose proof (Zle_0_nat (length data)). unfold n, Py.len. lia. }
  split; [exact Hc|]. rewrite <- Hc. apply consumed_count.
  apply (compress_loop_Forall data window_size max_length
           (fun tok => 0 <= tok_length tok)) with (3 := E); [|lia].
  intros i tok i' Hi He.
  exact (proj1 (proj1 (emit_shape data window_size max_length i tok i' Hi He))).
Qed.

(** X2 (no overlapping match is emitted).  For every input and every
    configuration, each token of [compress] has [0 <= length <= distance]
    (the source of a match ends before the current position), has
    [distance == 0] exactly when [length == 0], and carries a literal in
    [0, 255]. *)
Theorem compress_never_overlaps data window_size max_length :
  exists tokens,
    compress data window_size max_length = Some tokens
    /\ Forall (fun tok =>
                 0 <= tok_length tok <= tok_distance tok
                 /\ (tok_distance tok = 0 <-> tok_length tok = 0)
                 /\ 0 <= tok_literal tok <= 255) tokens.
Proof.
  destruct (compress_loop_total data window_size max_length (length data) 0)
    as [toks E]; [unfold n, Py.len; lia|].
  exists toks. split; [exact E|].
  apply (compress_loop_Forall data window_size max_length) with (3 := E);
    [|lia].
  apply emit_shape.
Qed.

(** X3 (the last byte is a literal).  For a non-empty input, the last token
    of [compress] carries the last byte of the input as its literal: no
    match runs to the end of the input. *)
Theorem compress_ends_with_last_byte data window_size max_length :
  data <> [] ->
  exists tokens,
    compress data window_size max_length = Some tokens
    /\ tokens <> []
    /\ tok_literal (last tokens (0, 0, 0))
       = Py.int_of_byte (last data x00).
Proof.
  intros Hne.
  destruct (compress_loop_total data window_size max_length (length data) 0)
    as [toks E]; [unfold n, Py.len; lia|].
  exists toks. split; [exact E|].
  assert (Hlen : 0 < n data).
  { unfold n, Py.len. destruct data; [contradiction | simpl; lia]. }
  destruct (compress_loop_last data window_size max_length (length data) 0
              toks ltac:(lia) E) as (tok & <- & Hne' & Hlit).
  split; [exact Hne'|]. rewrite Hlit. f_equal.
  unfold Py.byte_at, n, Py.len in *.
  replace (Z.to_nat (Z.of_nat (length data) - 1)) with (length data - 1)%nat
    by lia.
  destruct (exists_last Hne) as (l & x & ->).
  rewrite length_app, last_last. simpl.
  rewrite app_nth2 by lia.
  replace (length l + 1 - 1 - length l)%nat with 0%nat by lia. reflexivity.
Qed.

Lemma compress_ends_with_last_byte_witness :
  exists tokens,
    compress ["A"; "B"; "A"; "B"; "C"]%byte 16 15 = Some tokens
    /\ tokens <> []
    /\ tok_literal (last tokens (0, 0, 0))
       = Py.int_of_byte (last ["A"; "B"; "A"; "B"; "C"]%byte x00).
Proof.
  apply (compress_ends_with_last_byte ["A"; "B"; "A"; "B"; "C"]%byte 16 15).
  discriminate.
Defined.

(** X4 (degenerate configurations).  With [window_size <= 0] or
    [max_length <= 0] the search finds nothing: [compress] returns one
    literal token [(0, 0, b)] per input byte [b], in order. *)
Theorem compress_without_window_is_literal data window_size max_length :
  window_size <= 0 \/ max_length <= 0 ->
  compress data window_size max_length
  = Some (map (fun b => (0, 0, Py.int_of_byte b)) data).
Proof.
  intros Hdeg. unfold compress.
  rewrite (compress_loop_degenerate data window_size max_length
             (length data) Hdeg 0); [reflexivity | lia |].
  unfold n, Py.len. lia.
Qed.

Lemma compress_without_window_is_literal_witness :
  compress ["A"; "A"; "A"]%byte 0 15
  = Some (map (fun b => (0, 0, Py.int_of_byte b)) ["A"; "A"; "A"]%byte).
Proof.
  apply (compress_without_window_is_literal ["A"; "A"; "A"]%byte 0 15).
  left. lia.
Defined.


End EncoderProps.

(** * More on the decoder *)

Module DecoderProps.
Import Decoder DecoderFacts.

(** ** What a run appends, for any window *)

Lemma slice_from_incl {A : Type} (l : list A) s : incl (Py.slice_from l s) l.
Proof.
  unfold Py.slice_from. intros x Hx.
  match type of Hx with In _ (skipn ?k _) =>
    rewrite <- (firstn_skipn k l) end.
  apply in_or_app. right. exact Hx.
Qed.

Lemma truncate_hist_incl w st : incl (hist (truncate w st)) (hist st).
Proof.
  unfold truncate. destruct (_ >? _); simpl;
    [apply slice_from_incl | apply incl_refl].
Qed.

Lemma from_push src w b st :
  from src st -> In b src -> from src (truncate w (append b st)).
Proof.
  intros [Ho Hh] Hb. split.
  - rewrite truncate_out. simpl. apply incl_app; [assumption|].
    intros x [<-|[]]. exact Hb.
  - rewrite truncate_out. eapply incl_tran; [apply truncate_hist_incl|].
    simpl. apply incl_app_app; [assumption | apply incl_refl].
Qed.

Lemma copy_loop_appends w start cnt src : forall k st st',
  copy_loop w start cnt k st = Ok st' ->
  (exists added, out_full st' = out_full st ++ added /\ length added = cnt)
  /\ (from src st -> from src st').
Proof.
  induction cnt as [|cnt IH]; intros k st st' H; simpl in H.
  - inversion H; subst. split; [|auto]. exists []. now rewrite app_nil_r.
  - destruct (Py.index (hist st) (start + k)) as [b|] eqn:E; [|discriminate].
    destruct (IH _ _ _ H) as [(added & Ha & Hlen) Hf]. split.
    + exists (b :: added). rewrite Ha, truncate_out. simpl.
      rewrite <- app_assoc. simpl. auto.
    + intros Hst. apply Hf. apply from_push; [assumption|].
      destruct Hst as [Ho Hh]. apply Ho, Hh.
      unfold Py.index in E. destruct (_ || _); [discriminate|].
      exact (nth_error_In _ _ E).
Qed.

Lemma step_appends w src st tok st' :
  step w st tok = Ok st' ->
  (exists copied,
      out_full st' = out_full st ++ copied ++ [tok_literal tok]
      /\ length copied = Z.to_nat (tok_length tok))
  /\ (from src st -> In (tok_literal tok) src -> from src st').
Proof.
  destruct tok as [[distance length] literal].
  unfold step, back_reference, tok_literal, tok_length. simpl.
  destruct (Z.eqb_spec length 0) as [->|Hne]; simpl.
  - intros H; inversion H; subst. split.
    + exists []. rewrite truncate_out. simpl. auto.
    + intros Hst Hl. apply from_push; assumption.
  - destruct (distance =? 0); [discriminate|].
    destruct (distance >? Py.len (hist st)); [discriminate|].
    destruct (copy_loop w (Py.len (hist st) - distance) (Z.to_nat length) 0 st)
      as [st1|e] eqn:E; simpl; [|discriminate].
    intros H; inversion H; subst.
    destruct (copy_loop_appends _ _ _ src _ _ _ E) as [(added & Ha & Hlen) Hf].
    split.
    + exists added. rewrite truncate_out. simpl. rewrite Ha, <- app_assoc. auto.
    + intros Hst Hl. apply from_push; auto.
Qed.

Lemma run_appends w tokens : forall src st st',
  run w tokens st = Ok st' ->
  (exists added,
      out_full st' = out_full st ++ added
      /\ Z.of_nat (length added) = produced tokens
      /\ incl (map tok_literal tokens) added)
  /\ (from src st -> incl (map tok_literal tokens) src -> from src st').
Proof.
  induction tokens as [|tok rest IH]; intros src st st' H; cbn [run] in H.
  - inversion H; subst. split; [|auto].
    exists []. rewrite app_nil_r. repeat split. apply incl_nil_l.
  - destruct (step w st tok) as [st1|e] eqn:E; cbn [bind] in H; [|discriminate].
    destruct (step_appends w src st tok st1 E) as [(copied & Hc & Hlen) Hf1].
    destruct (IH src st1 st' H) as [(added & Ha & Hp & Hin) Hf].
    split.
    + exists ((copied ++ [tok_literal tok]) ++ added).
      rewrite Ha, Hc, <- !app_assoc. split; [reflexivity|]. split.
      * rewrite !length_app. simpl. lia.
      * simpl. intros x [<-|Hx].
        -- apply in_or_app. right. left. reflexivity.
        -- apply in_or_app. right. right. apply Hin. exact Hx.
    + intros Hst Hl. apply Hf.
      * apply Hf1; [assumption|]. apply Hl. left. reflexivity.
      * intros x Hx. apply Hl. right. exact Hx.
Qed.

(** ** Conversion to bytes *)

Lemma bytes_app a b bs :
  Py.bytes (a ++ b) = Some bs ->
  exists ba bb, Py.bytes a = Some ba /\ Py.bytes b = Some bb /\ bs = ba ++ bb.
Proof.
  revert bs. induction a as [|z a IH]; intros bs H; simpl in *.
  - exists [], bs. auto.
  - destruct (Py.byte_of_int z) as [x|]; [|discriminate].
    destruct (Py.bytes (a ++ b)) as [bs'|] eqn:E; [|discriminate].
    inversion H; subst. destruct (IH bs' eq_refl) as (ba & bb & -> & -> & ->).
    exists (x :: ba), bb. auto.
Qed.

Lemma bytes_length l bs : Py.bytes l = Some bs -> length bs = length l.
Proof.
  revert bs. induction l as [|z l IH]; intros bs H; simpl in H.
  - now inversion H.
  - destruct (Py.byte_of_int z); [|discriminate].
    destruct (Py.bytes l) as [bs'|]; [|discriminate].
    inversion H; subst. simpl. f_equal. now apply IH.
Qed.

Lemma byte_of_int_none z : Py.byte_of_int z = None <-> z < 0 \/ 255 < z.
Proof.
  unfold Py.byte_of_int. destruct (Z.ltb_spec z 0).
  - split; [left; assumption | reflexivity].
  - rewrite Byte.of_N_None_iff. lia.
Qed.

Lemma bytes_none l :
  Py.bytes l = None <-> exists z, In z l /\ (z < 0 \/ 255 < z).
Proof.
  induction l as [|z l IH]; simpl.
  - split; [discriminate | intros (z & [] & _)].
  - destruct (Py.byte_of_int z) as [b|] eqn:E.
    + destruct (Py.bytes l) as [bs|].
      * split; [discriminate|]. intros (x & [<-|Hx] & Hr).
        -- apply byte_of_int_none in Hr. congruence.
        -- destruct IH as [_ IH].
           discriminate (IH (ex_intro _ x (conj Hx Hr))).
      * split; [|reflexivity]. intros _.
        destruct IH as [IH _]. destruct (IH eq_refl) as (x & Hx & Hr).
        exists x. auto.
    + split; [|reflexivity]. intros _. exists z. split; [auto|].
      now apply byte_of_int_none.
Qed.

(** ** The errors of the token loop *)

Lemma step_never_bytes_range w st tok : step w st tok <> Raise BytesRange.
Proof.
  destruct tok as [[distance length] literal]. unfold step, back_reference.
  destruct (length =? 0); simpl; [discriminate|].
  destruct (distance =? 0); simpl; [discriminate|].
  destruct (distance >? Py.len (hist st)); simpl; [discriminate|].
  destruct (copy_loop w (Py.len (hist st) - distance) (Z.to_nat length) 0 st)
    as [st1|e] eqn:E; simpl; [discriminate|].
  apply copy_loop_raises in E. subst. discriminate.
Qed.

Lemma run_never_bytes_range w tokens : forall st,
  run w tokens st <> Raise BytesRange.
Proof.
  induction tokens as [|tok rest IH]; intros st; cbn [run]; [discriminate|].
  destruct (step w st tok) as [st1|e] eqn:E; cbn [bind]; [apply IH|].
  intros H. inversion H; subst. exact (step_never_bytes_range w st tok E).
Qed.

Lemma run_literals w (pairs : list (Z * byte)) : forall st,
  exists st',
    run w (map (fun p => (fst p, 0, Py.int_of_byte (snd p))) pairs) st = Ok st'
    /\ out_full st' = out_full st ++ map Py.int_of_byte (map snd pairs).
Proof.
  induction pairs as [|[d b] pairs IH]; intros st; simpl.
  - exists st. now rewrite app_nil_r.
  - destruct (IH (truncate w (append (Py.int_of_byte b) st)))
      as (st' & Hr & Ho).
    exists st'. split; [exact Hr|].
    rewrite Ho, truncate_out. simpl. now rewrite <- app_assoc.
Qed.

(** X5 (length of the output).  When [decompress_stream] returns, the
    output has one byte per literal and [length] bytes per back-reference:
    [len(output)] is the sum of [max(length, 0) + 1] over the tokens,
    whatever the window. *)
Theorem decode_output_length tokens window_size bs :
  decompress_stream tokens window_size = Ok bs ->
  Py.len bs = produced tokens.
Proof.
  unfold decompress_stream. intros H.
  destruct (run window_size tokens init) as [st|e] eqn:E; cbn [bind] in H;
    [|discriminate].
  destruct (Py.bytes (out_full st)) as [bs'|] eqn:Eb; [|discriminate].
  inversion H; subst bs'.
  destruct (run_appends window_size tokens [] init st E)
    as [(added & Ha & Hp & _) _].
  unfold Py.len. rewrite (bytes_length _ _ Eb), Ha. simpl. exact Hp.
Qed.

Lemma decode_output_length_witness :
  Py.len ["A"; "B"; "A"; "B"; "A"; "C"]%byte
  = produced [(0, 0, 65); (0, 0, 66); (2, 3, 67)].
Proof.
  apply (decode_output_length [(0, 0, 65); (0, 0, 66); (2, 3, 67)] 8).
  reflexivity.
Defined.

(** X6 (literal tokens).  A token with [length == 0] appends its literal
    and nothing else: its distance is not looked at, and no window size
    (zero and negative ones included) changes the output.  A sequence of
    such tokens decodes to its literals. *)
Theorem literal_tokens_decode_to_literals window_size (pairs : list (Z * byte)) :
  decompress_stream
    (map (fun p => (fst p, 0, Py.int_of_byte (snd p))) pairs) window_size
  = Ok (map snd pairs).
Proof.
  unfold decompress_stream.
  destruct (run_literals window_size pairs init) as (st & -> & Ho).
  cbn [bind]. rewrite Ho. simpl.
  assert (Hb : forall bs, Py.bytes (map Py.int_of_byte bs) = Some bs).
  { induction bs as [|b bs IH]; simpl; [reflexivity|].
    rewrite IH. unfold Py.byte_of_int, Py.int_of_byte.
    destruct (Z.ltb_spec (Z.of_N (Byte.to_N b)) 0); [lia|].
    now rewrite N2Z.id, Byte.of_to_N. }
  now rewrite Hb.
Qed.

(** X7 (decoding is incremental).  If a token sequence decodes, each of
    its prefixes decodes, to a prefix of the output; and an error other
    than the final conversion to bytes, once raised on a prefix, is the
    error of every longer sequence. *)
Theorem decoding_is_incremental window_size pre post :
  (forall bs,
      decompress_stream (pre ++ post) window_size = Ok bs ->
      exists bs_pre bs_post,
        decompress_stream pre window_size = Ok bs_pre
        /\ bs = bs_pre ++ bs_post
        /\ Py.len bs_post = produced post)
  /\ (forall e,
        decompress_stream pre window_size = Raise e -> e <> BytesRange ->
        decompress_stream (pre ++ post) window_size = Raise e).
Proof.
  unfold decompress_stream. rewrite run_app. split.
  - intros bs H.
    destruct (run window_size pre init) as [st1|e1] eqn:E1; cbn [bind] in *;
      [|discriminate].
    destruct (run window_size post st1) as [st|e] eqn:E; cbn [bind] in H;
      [|discriminate].
    destruct (Py.bytes (out_full st)) as [bs'|] eqn:Eb; [|discriminate].
    inversion H; subst bs'.
    destruct (run_appends window_size post [] st1 st E)
      as [(added & Ha & Hp & _) _].
    rewrite Ha in Eb. destruct (bytes_app _ _ _ Eb) as (ba & bb & Hba & Hbb & ->).
    exists ba, bb. rewrite Hba. split; [reflexivity|]. split; [reflexivity|].
    unfold Py.len. rewrite (bytes_length _ _ Hbb). exact Hp.
  - intros e H Hne.
    destruct (run window_size pre init) as [st1|e1] eqn:E1; cbn [bind] in *.
    + destruct (Py.bytes (out_full st1)); [discriminate|].
      inversion H; subst. contradiction.
    + exact H.
Qed.

Lemma decoding_is_incremental_witness :
  (exists bs_pre bs_post,
      decompress_stream [(0, 0, 65); (0, 0, 66)] 4 = Ok bs_pre
      /\ ["A"; "B"; "A"; "B"; "C"]%byte = bs_pre ++ bs_post
      /\ Py.len bs_post = produced [(2, 2, 67)])
  /\ decompress_stream ([(0, 0, 65); (3, 1, 66)] ++ [(0, 0, 67)]) 4
     = Raise (InvalidBackRef 3 1).
Proof.
  split.
  - apply (decoding_is_incremental 4 [(0, 0, 65); (0, 0, 66)] [(2, 2, 67)]).
    reflexivity.
  - apply (decoding_is_incremental 4 [(0, 0, 65); (3, 1, 66)] [(0, 0, 67)]);
      [reflexivity | discriminate].
Defined.

(** X8 (the final conversion).  [bytes(out_full)] is the only step that
    looks at the value of a literal: [decompress_stream] raises its error
    exactly when the token loop runs to its end and some token carries a
    literal outside [0, 255]. *)
Theorem bytes_error_iff_literal_out_of_range tokens window_size :
  decompress_stream tokens window_size = Raise BytesRange
  <-> (exists st, run window_size tokens init = Ok st)
      /\ (exists tok, In tok tokens
                      /\ (tok_literal tok < 0 \/ 255 < tok_literal tok)).
Proof.
  unfold decompress_stream. split.
  - intros H.
    destruct (run window_size tokens init) as [st|e] eqn:E; cbn [bind] in H.
    + split; [eexists; reflexivity|].
      destruct (Py.bytes (out_full st)) eqn:Eb; [discriminate|].
      apply bytes_none in Eb. destruct Eb as (z & Hz & Hr).
      destruct (run_appends window_size tokens (map tok_literal tokens)
                  init st E) as [_ Hf].
      destruct Hf as [Ho _]; [split; apply incl_nil_l | apply incl_refl|].
      apply Ho, in_map_iff in Hz. destruct Hz as (tok & <- & Hin).
      exists tok. auto.
    + inversion H; subst. exfalso.
      exact (run_never_bytes_range window_size tokens init E).
  - intros [[st E] (tok & Hin & Hr)]. rewrite E. cbn [bind].
    destruct (run_appends window_size tokens [] init st E)
      as [(added & Ha & _ & Hl) _].
    assert (Hn : Py.bytes (out_full st) = None).
    { apply bytes_none. exists (tok_literal tok). split; [|exact Hr].
      rewrite Ha. simpl. apply Hl. now apply in_map. }
    now rewrite Hn.
Qed.

(** ** Windows that never cut *)

Lemma truncate_zero st : truncate 0 st = st.
Proof.
  unfold truncate. destruct (Py.len (hist st) >? 0); [|reflexivity].
  unfold Py.slice_from. change (- 0) with 0. change (0 <? 0) with false.
  cbv iota. rewrite Z.min_l by apply len_nonneg.
  destruct st; reflexivity.
Qed.

Lemma truncate_fits w st : Py.len (hist st) <= w -> truncate w st = st.
Proof.
  intros H. unfold truncate.
  destruct (Z.gtb_spec (Py.len (hist st)) w); [lia | reflexivity].
Qed.

Lemma len_hist_append b st :
  Py.len (hist (append b st)) = Py.len (hist st) + 1.
Proof. simpl. rewrite len_app. reflexivity. Qed.

Lemma copy_loop_wide w start cnt : forall k st,
  Py.len (hist st) + Z.of_nat cnt <= w ->
  copy_loop w start cnt k st = copy_loop 0 start cnt k st
  /\ (forall st', copy_loop 0 start cnt k st = Ok st' ->
        Py.len (hist st') = Py.len (hist st) + Z.of_nat cnt
        /\ (hist st = out_full st -> hist st' = out_full st')).
Proof.
  induction cnt as [|cnt IH]; intros k st Hfit; simpl.
  - split; [reflexivity|]. intros st' H; inversion H; subst.
    split; [lia | auto].
  - destruct (Py.index (hist st) (start + k)) as [b|];
      [|split; [reflexivity|discriminate]].
    rewrite truncate_zero, (truncate_fits w) by (rewrite len_hist_append; lia).
    destruct (IH (k + 1) (append b st)) as [He Hl];
      [rewrite len_hist_append; lia|].
    split; [exact He|]. intros st' H.
    destruct (Hl st' H) as (H1 & H3). rewrite len_hist_append in H1.
    split; [lia|].
    intros Heq. apply H3. simpl. now rewrite Heq.
Qed.

Lemma step_wide w st tok :
  Py.len (hist st) + Z.max 0 (tok_length tok) + 1 <= w ->
  step w st tok = step 0 st tok
  /\ (forall st', step 0 st tok = Ok st' ->
        Py.len (hist st')
        = Py.len (hist st) + Z.max 0 (tok_length tok) + 1
        /\ (hist st = out_full st -> hist st' = out_full st')).
Proof.
  destruct tok as [[distance length] literal].
  unfold tok_length, step, back_reference. simpl. intros Hfit.
  destruct (Z.eqb_spec length 0) as [->|Hne]; cbn [bind].
  - rewrite truncate_zero, (truncate_fits w)
      by (rewrite len_hist_append; lia).
    split; [reflexivity|]. intros st' H; inversion H; subst.
    rewrite len_hist_append. split; [lia|]. simpl. now intros ->.
  - destruct (distance =? 0); [split; [reflexivity|discriminate]|].
    destruct (distance >? Py.len (hist st));
      [split; [reflexivity|discriminate]|].
    destruct (copy_loop_wide w (Py.len (hist st) - distance)
                (Z.to_nat length) 0 st) as [He Hl]; [lia|].
    rewrite He.
    destruct (copy_loop 0 (Py.len (hist st) - distance) (Z.to_nat length) 0 st)
      as [st1|e]; cbn [bind]; [|split; [reflexivity|discriminate]].
    destruct (Hl st1 eq_refl) as (H1 & H3).
    rewrite truncate_zero, (truncate_fits w)
      by (rewrite len_hist_append; lia).
    split; [reflexivity|]. intros st' H; inversion H; subst.
    rewrite len_hist_append. split; [lia|].
    intros Heq. simpl. now rewrite (H3 Heq).
Qed.

Lemma run_wide w tokens : forall st,
  Py.len (hist st) + produced tokens <= w ->
  run w tokens st = run 0 tokens st
  /\ (forall st', run 0 tokens st = Ok st' ->
        hist st = out_full st -> hist st' = out_full st').
Proof.
  induction tokens as [|tok rest IH]; intros st Hfit; cbn [run].
  - split; [reflexivity|]. intros st' H; inversion H; subst. auto.
  - cbn [produced] in Hfit.
    assert (Hp : 0 <= produced rest).
    { clear. induction rest as [|t r IHr]; simpl; lia. }
    destruct (step_wide w st tok) as [He Hl]; [lia|].
    rewrite He. destruct (step 0 st tok) as [st1|e]; cbn [bind];
      [|split; [reflexivity|discriminate]].
    destruct (Hl st1 eq_refl) as [H1 H2].
    destruct (IH st1) as [He' Hl']; [lia|].
    split; [exact He'|]. intros st' H Heq. apply Hl'; auto.
Qed.

(** X24 (a zero window never cuts).  With [window_size = 0] the slice
    [hist[-0:]] is the whole list: after every run that returns, the
    history is the whole output. *)
Theorem zero_window_never_cuts tokens st :
  run 0 tokens init = Ok st -> hist st = out_full st.
Proof.
  intros H.
  assert (Hgen : forall toks s s',
             run 0 toks s = Ok s' -> hist s = out_full s ->
             hist s' = out_full s').
  { induction toks as [|tok rest IH]; intros s s' Hr Hs; cbn [run] in Hr.
    - inversion Hr; subst; assumption.
    - destruct (step 0 s tok) as [s1|e] eqn:E; cbn [bind] in Hr;
        [|discriminate].
      apply (IH s1 s' Hr).
      destruct (step_wide (Py.len (hist s) + Z.max 0 (tok_length tok) + 1)
                  s tok ltac:(lia)) as [_ Hl].
      exact (proj2 (Hl s1 E) Hs). }
  exact (Hgen tokens init st H eq_refl).
Qed.

Lemma zero_window_never_cuts_witness :
  exists st,
    run 0 [(0, 0, 65); (0, 0, 66); (2, 2, 67)] init = Ok st
    /\ hist st = out_full st.
Proof.
  exists (mkState [65; 66; 65; 66; 67] [65; 66; 65; 66; 67]).
  split; [reflexivity|].
  apply (zero_window_never_cuts [(0, 0, 65); (0, 0, 66); (2, 2, 67)]).
  reflexivity.
Defined.

(** X25 (a window that holds the whole output).  A window at least as
    large as the output the tokens describe never cuts the history:
    [decompress_stream] then returns, or raises, exactly what it does with
    [window_size = 0]. *)
Theorem wide_window_is_no_window tokens window_size :
  produced tokens <= window_size ->
  decompress_stream tokens window_size = decompress_stream tokens 0.
Proof.
  intros H. unfold decompress_stream.
  destruct (run_wide window_size tokens init) as [-> _]; [simpl; lia|].
  reflexivity.
Qed.

Lemma wide_window_is_no_window_witness :
  decompress_stream [(0, 0, 65); (0, 0, 66); (1, 4, 67)] 7
  = decompress_stream [(0, 0, 65); (0, 0, 66); (1, 4, 67)] 0.
Proof.
  apply (wide_window_is_no_window [(0, 0, 65); (0, 0, 66); (1, 4, 67)] 7).
  vm_compute. discriminate.
Defined.


End DecoderProps.

(** * More on token packing *)

Module CodecProps.
Import Codec CodecFacts.

Lemma shl_ok a b r : shl a b = Ok r -> 0 <= b /\ r = Z.shiftl a b.
Proof.
  unfold shl. destruct (Z.ltb_spec b 0) as [Hb|Hb]; [discriminate|].
  intros H; inversion H. auto.
Qed.

Lemma land_mask x k : 0 <= k -> Z.land x (2 ^ k - 1) = x mod 2 ^ k.
Proof.
  intros Hk. change (2 ^ k - 1) with (Z.pred (2 ^ k)).
  rewrite <- Z.ones_equiv. now apply Z.land_ones.
Qed.

Lemma pack_ok_range dw lw tw d l lit word :
  pack_token_word dw lw tw d l lit = Ok word ->
  0 <= dw /\ 0 <= lw /\ 0 <= tw /\ 0 <= word < 2 ^ tw.
Proof.
  unfold pack_token_word. intros H.
  destruct (shl 1 dw) as [dmax|] eqn:E1; cbn [bind] in H; [|discriminate].
  destruct (d >=? dmax); [discriminate|].
  destruct (shl 1 lw) as [lmax|] eqn:E2; cbn [bind] in H; [|discriminate].
  destruct (l >=? lmax); [discriminate|].
  destruct ((lit <? 0) || (lit >? 255)); [discriminate|].
  destruct (shl d (lw + 8)) as [dd|] eqn:E3; cbn [bind] in H; [|discriminate].
  destruct (shl l 8) as [ll|] eqn:E4; cbn [bind] in H; [|discriminate].
  destruct (shl 1 tw) as [m|] eqn:E5; cbn [bind] in H; [|discriminate].
  apply shl_ok in E1, E2, E5. destruct E1 as [Hdw _], E2 as [Hlw _].
  destruct E5 as [Htw ->]. inversion H; subst word.
  rewrite Z.shiftl_1_l, land_mask by assumption.
  repeat split; try assumption; apply Z.mod_pos_bound;
    apply Z.pow_pos_nonneg; lia.
Qed.

(** X14 (the word fits the token width).  Whenever [pack_token_word]
    returns, its widths are not negative and the word lies in
    [0, 2^token_w): the mask is applied to every word, also to one built
    from negative fields. *)
Theorem pack_word_in_range dw lw tw d l lit word :
  pack_token_word dw lw tw d l lit = Ok word ->
  0 <= dw /\ 0 <= lw /\ 0 <= tw /\ 0 <= word < 2 ^ tw.
Proof. apply pack_ok_range. Qed.

Lemma pack_word_in_range_witness :
  0 <= 4 /\ 0 <= 4 /\ 0 <= 16 /\ 0 <= 0xF041 < 2 ^ 16.
Proof.
  apply (pack_word_in_range 4 4 16 (-1) 0 0x41 0xF041). reflexivity.
Defined.

(** With fields that are not negative and a token width that holds the
    three of them, the word is their positional sum. *)
Lemma pack_sum dw lw tw d l lit :
  0 <= dw -> 0 <= lw -> dw + lw + 8 <= tw ->
  0 <= d < 2 ^ dw -> 0 <= l < 2 ^ lw -> 0 <= lit <= 255 ->
  pack_token_word dw lw tw d l lit
  = Ok (d * 2 ^ (lw + 8) + l * 2 ^ 8 + lit)
  /\ 0 <= l * 2 ^ 8 + lit < 2 ^ (lw + 8).
Proof.
  intros Hdw Hlw Htw Hd Hl Hlit.
  assert (Hlow : 0 <= l * 2 ^ 8 + lit < 2 ^ (lw + 8)).
  { rewrite Z.pow_add_r by lia. nia. }
  split; [|exact Hlow].
  rewrite pack_unfold by lia.
  destruct (Z.geb_spec d (2 ^ dw)); [lia|].
  destruct (Z.geb_spec l (2 ^ lw)); [lia|].
  destruct (Z.ltb_spec lit 0); [lia|].
  destruct (Z.gtb_spec lit 255); [lia|]. cbn [orb]. f_equal.
  rewrite !Z.shiftl_mul_pow2 by lia.
  rewrite <- Z.lor_assoc, (lor_disjoint l lit 8) by lia.
  rewrite lor_disjoint by lia.
  rewrite land_mask by lia. rewrite Z.mod_small; [lia|].
  assert (Hall : 0 <= d * 2 ^ (lw + 8) + (l * 2 ^ 8 + lit)
                 < 2 ^ (dw + lw + 8)).
  { replace (dw + lw + 8) with (dw + (lw + 8)) by lia.
    rewrite (Z.pow_add_r 2 dw) by lia.
    assert (0 < 2 ^ (lw + 8)) by (apply Z.pow_pos_nonneg; lia).
    nia. }
  assert (2 ^ (dw + lw + 8) <= 2 ^ tw) by (apply Z.pow_le_mono_r; lia).
  lia.
Qed.

(** X15 (the fields can be read back).  For fields within their widths and
    not negative, and [token_w >= dist_width + len_width + 8], the word has
    the literal in bits [7:0], the length in the [len_width] bits above and
    the distance on top: each field is recovered by a shift and a mask, so
    two different tokens never pack to the same word. *)
Theorem pack_fields_recoverable dw lw tw d l lit :
  0 <= dw -> 0 <= lw -> dw + lw + 8 <= tw ->
  0 <= d < 2 ^ dw -> 0 <= l < 2 ^ lw -> 0 <= lit <= 255 ->
  exists word,
    pack_token_word dw lw tw d l lit = Ok word
    /\ Z.land word 255 = lit
    /\ Z.land (Z.shiftr word 8) (2 ^ lw - 1) = l
    /\ Z.shiftr word (lw + 8) = d.
Proof.
  intros Hdw Hlw Htw Hd Hl Hlit.
  destruct (pack_sum dw lw tw d l lit Hdw Hlw Htw Hd Hl Hlit) as [Hp Hlow].
  exists (d * 2 ^ (lw + 8) + l * 2 ^ 8 + lit). split; [exact Hp|].
  assert (H8 : 2 ^ (lw + 8) = 2 ^ lw * 2 ^ 8) by (apply Z.pow_add_r; lia).
  assert (Hpos : 0 < 2 ^ lw) by (apply Z.pow_pos_nonneg; lia).
  split; [|split].
  - change 255 with (2 ^ 8 - 1). rewrite land_mask by lia.
    symmetry. apply (Z.mod_unique _ _ (d * 2 ^ lw + l)); [lia | rewrite H8; ring].
  - rewrite Z.shiftr_div_pow2, land_mask by lia.
    replace ((d * 2 ^ (lw + 8) + l * 2 ^ 8 + lit) / 2 ^ 8)
      with (d * 2 ^ lw + l).
    + symmetry. apply (Z.mod_unique _ _ d); [lia | ring].
    + apply (Z.div_unique _ _ _ lit); [lia | rewrite H8; ring].
  - rewrite Z.shiftr_div_pow2 by lia.
    symmetry. apply (Z.div_unique _ _ _ (l * 2 ^ 8 + lit)); [lia | ring].
Qed.

Lemma pack_fields_recoverable_witness :
  exists word,
    pack_token_word 4 4 16 1 2 65 = Ok word
    /\ Z.land word 255 = 65
    /\ Z.land (Z.shiftr word 8) (2 ^ 4 - 1) = 2
    /\ Z.shiftr word (4 + 8) = 1.
Proof.
  apply (pack_fields_recoverable 4 4 16 1 2 65); lia.
Defined.

End CodecProps.

(** * Hexadecimal text *)

Module HexFacts.
Import Hex.

Lemma length_append (s1 s2 : string) :
  String.length (s1 ++ s2) = (String.length s1 + String.length s2)%nat.
Proof. induction s1 as [|c s1 IH]; simpl; [reflexivity | now rewrite IH]. Qed.

Lemma append_assoc (s1 s2 s3 : string) :
  ((s1 ++ s2) ++ s3 = s1 ++ (s2 ++ s3))%string.
Proof. induction s1 as [|c s1 IH]; simpl; [reflexivity | now rewrite IH]. Qed.

Lemma append_nil_r (s : string) : (s ++ "")%string = s.
Proof. induction s as [|c s IH]; simpl; [reflexivity | now rewrite IH]. Qed.

Lemma append_inj_l (s a b : string) : (s ++ a = s ++ b)%string -> a = b.
Proof.
  induction s as [|c s IH]; simpl; intros H; [exact H|].
  inversion H. auto.
Qed.

(** ** Digits *)

Lemma digit_value_digit d : 0 <= d < 16 -> digit_value (digit d) = Some d.
Proof.
  intros Hd.
  assert (Hc : d = 0 \/ d = 1 \/ d = 2 \/ d = 3 \/ d = 4 \/ d = 5 \/ d = 6
               \/ d = 7 \/ d = 8 \/ d = 9 \/ d = 10 \/ d = 11 \/ d = 12
               \/ d = 13 \/ d = 14 \/ d = 15) by lia.
  repeat (destruct Hc as [-> | Hc]; [reflexivity|]). subst. reflexivity.
Qed.

Lemma value_from_app s1 : forall acc s2,
  value_from acc (s1 ++ s2)
  = match value_from acc s1 with
    | Some a => value_from a s2
    | None => None
    end.
Proof.
  induction s1 as [|c s1 IH]; intros acc s2; simpl; [reflexivity|].
  destruct (digit_value c); [apply IH | reflexivity].
Qed.

Lemma digits_fuel_value fuel : forall v,
  0 <= v < 2 ^ (Z.of_nat fuel + 4) ->
  value_from 0 (digits_fuel fuel v) = Some v.
Proof.
  induction fuel as [|fuel IH]; intros v Hv; simpl.
  - change (2 ^ (Z.of_nat 0 + 4)) with 16 in Hv.
    rewrite digit_value_digit by lia. f_equal; lia.
  - destruct (Z.ltb_spec v 16).
    + simpl. rewrite digit_value_digit by lia. f_equal; lia.
    + rewrite value_from_app, IH.
      * simpl. rewrite digit_value_digit by (apply Z.mod_pos_bound; lia).
        pose proof (Z.div_mod v 16). f_equal; lia.
      * split; [apply Z.div_pos; lia|].
        apply Z.div_lt_upper_bound; [lia|].
        replace (Z.of_nat (S fuel) + 4) with (1 + (Z.of_nat fuel + 4)) in Hv
          by lia.
        rewrite Z.pow_add_r in Hv by lia.
        assert (0 < 2 ^ (Z.of_nat fuel + 4)) by (apply Z.pow_pos_nonneg; lia).
        lia.
Qed.

Lemma digits_value v : 0 <= v -> value (digits v) = Some v.
Proof.
  intros Hv. apply digits_fuel_value. split; [assumption|].
  rewrite Z2Nat.id by apply Z.log2_nonneg.
  destruct (Z.eq_dec v 0) as [->|Hne]; [reflexivity|].
  destruct (Z.log2_spec v) as [_ Hlt]; [lia|].
  apply Z.lt_le_trans with (1 := Hlt).
  apply Z.pow_le_mono_r; lia.
Qed.

Lemma digits_fuel_length fuel : forall v k,
  0 <= v < 2 ^ (Z.of_nat fuel + 4) ->
  (1 <= k)%nat -> v < 16 ^ Z.of_nat k ->
  (1 <= String.length (digits_fuel fuel v) <= k)%nat.
Proof.
  induction fuel as [|fuel IH]; intros v k Hv Hk Hlt; simpl; [lia|].
  destruct (Z.ltb_spec v 16); [simpl; lia|].
  rewrite length_append. simpl.
  destruct k as [|[|k]]; [lia | simpl in Hlt; lia |].
  destruct (IH (v / 16) (S k)) as [H1 H2]; [| lia | | lia].
  - split; [apply Z.div_pos; lia|].
    apply Z.div_lt_upper_bound; [lia|].
    replace (Z.of_nat (S fuel) + 4) with (1 + (Z.of_nat fuel + 4)) in Hv by lia.
    rewrite Z.pow_add_r in Hv by lia.
    assert (0 < 2 ^ (Z.of_nat fuel + 4)) by (apply Z.pow_pos_nonneg; lia).
    lia.
  - apply Z.div_lt_upper_bound; [lia|].
    replace (Z.of_nat (S (S k))) with (1 + Z.of_nat (S k)) in Hlt by lia.
    rewrite Z.pow_add_r in Hlt by lia. exact Hlt.
Qed.

Lemma digits_length v k :
  0 <= v < 16 ^ Z.of_nat k -> (1 <= k)%nat ->
  (1 <= String.length (digits v) <= k)%nat.
Proof.
  intros Hv Hk. apply digits_fuel_length; [|assumption|lia].
  split; [lia|]. rewrite Z2Nat.id by apply Z.log2_nonneg.
  destruct (Z.eq_dec v 0) as [->|Hne]; [reflexivity|].
  destruct (Z.log2_spec v) as [_ Hlt]; [lia|].
  apply Z.lt_le_trans with (1 := Hlt).
  apply Z.pow_le_mono_r; lia.
Qed.

(** ** Padding *)

Lemma zeros_length k : String.length (zeros k) = k.
Proof. induction k; simpl; congruence. Qed.

Lemma zeros_value k s : value_from 0 (zeros k ++ s) = value_from 0 s.
Proof. induction k as [|k IH]; simpl; [reflexivity | exact IH]. Qed.

Lemma pad_length width s :
  String.length (pad width s) = Nat.max width (String.length s).
Proof. unfold pad. rewrite length_append, zeros_length. lia. Qed.

(** What [0<width>X] gives for a value that is not negative: a text that
    reads back as the value, of [width] characters exactly when the value
    is below [16^width]. *)
Lemma format_value width v : 0 <= v -> value (format_0X width v) = Some v.
Proof.
  intros Hv. unfold format_0X. destruct (Z.ltb_spec v 0); [lia|].
  unfold value, pad. rewrite zeros_value. now apply digits_value.
Qed.

Lemma format_length width v :
  0 <= v < 16 ^ Z.of_nat width -> (1 <= width)%nat ->
  String.length (format_0X width v) = width.
Proof.
  intros Hv Hw. unfold format_0X. destruct (Z.ltb_spec v 0); [lia|].
  rewrite pad_length. pose proof (digits_length v width Hv Hw). lia.
Qed.

(** ** Lines *)

Lemma value_unbroken s : forall acc v, value_from acc s = Some v -> unbroken s.
Proof.
  induction s as [|c s IH]; intros acc v H; simpl in *; [exact I|].
  destruct (digit_value c) as [d|] eqn:E; [|discriminate].
  split; [|exact (IH _ _ H)].
  intros ->. discriminate E.
Qed.

Lemma lines_from_line s : forall cur rest,
  unbroken s ->
  lines_from cur (s ++ String newline rest)
  = (cur ++ s)%string :: lines rest.
Proof.
  induction s as [|c s IH]; intros cur rest Hs; simpl.
  - now rewrite append_nil_r.
  - destruct Hs as [Hc Hs]. destruct (Ascii.eqb_spec c newline); [contradiction|].
    rewrite IH by assumption. now rewrite append_assoc.
Qed.

Lemma lines_line s rest :
  unbroken s -> lines (s ++ String newline rest) = s :: lines rest.
Proof. intros Hs. unfold lines at 1. now rewrite lines_from_line. Qed.

End HexFacts.

(** * Writing the vectors *)

Module WriterFacts.
Import Writer HexFacts.

(** ** Paths *)

Lemma paths_distinct out_dir :
  tokens_path out_dir <> expected_path out_dir
  /\ tokens_path out_dir <> meta_path out_dir
  /\ expected_path out_dir <> meta_path out_dir.
Proof.
  unfold tokens_path, expected_path, meta_path.
  repeat split; intros H; apply append_inj_l in H; discriminate H.
Qed.

Lemma write_file_same path content files :
  write_file path content files path = Some content.
Proof. unfold write_file. now rewrite String.eqb_refl. Qed.

Lemma write_file_other path content files p :
  p <> path -> write_file path content files p = files p.
Proof.
  intros H. unfold write_file.
  destruct (String.eqb_spec p path); [contradiction | reflexivity].
Qed.

(** ** The token lines *)

Lemma digits_cover token_w :
  0 <= token_w ->
  0 <= hex_token_digits token_w
  /\ 2 ^ token_w <= 16 ^ Z.of_nat (Z.to_nat (hex_token_digits token_w))
  /\ (1 <= token_w -> (1 <= Z.to_nat (hex_token_digits token_w))%nat).
Proof.
  intros Hw. unfold hex_token_digits.
  assert (H0 : 0 <= (token_w + 3) / 4) by (apply Z.div_pos; lia).
  split; [assumption|]. split.
  - rewrite Z2Nat.id by assumption.
    change 16 with (2 ^ 4). rewrite <- Z.pow_mul_r by lia.
    apply Z.pow_le_mono_r; [lia|].
    pose proof (Z.div_mod (token_w + 3) 4).
    pose proof (Z.mod_pos_bound (token_w + 3) 4). lia.
  - intros H1.
    assert (1 <= (token_w + 3) / 4) by (apply Z.div_le_lower_bound; lia). lia.
Qed.

(** A word that was packed prints as one unbroken line of digits. *)
Lemma packed_word_line dw lw tw tok word :
  packs dw lw tw tok word ->
  exists line,
    Hex.format_nested (hex_token_digits tw) word = Some line
    /\ Hex.value line = Some word
    /\ Hex.unbroken line
    /\ (1 <= tw -> String.length line = Z.to_nat (hex_token_digits tw)).
Proof.
  unfold packs. intros H.
  destruct (CodecProps.pack_ok_range _ _ _ _ _ _ _ H)
    as (_ & _ & Htw & Hword).
  destruct (digits_cover tw Htw) as (Hd & Hcover & Hpos).
  unfold Hex.format_nested.
  destruct (Z.ltb_spec (hex_token_digits tw) 0); [lia|].
  eexists. split; [reflexivity|].
  assert (Hv := format_value (Z.to_nat (hex_token_digits tw)) word
                  ltac:(lia)).
  split; [exact Hv|]. split; [exact (value_unbroken _ _ _ Hv)|].
  intros H1. apply format_length; [lia | auto].
Qed.

Lemma token_lines_inv dw lw tw tokens : forall text r,
  token_lines dw lw tw tokens = (text, r) ->
  exists pre words,
    Forall2 (packs dw lw tw) pre words
    /\ map Hex.value (Hex.lines text) = map Some words
    /\ (1 <= tw ->
        Forall (fun line => String.length line
                            = Z.to_nat (hex_token_digits tw))
               (Hex.lines text))
    /\ ((r = None /\ tokens = pre)
        \/ (exists tok post e,
               tokens = pre ++ tok :: post
               /\ Codec.pack_token_word dw lw tw (tok_distance tok)
                    (tok_length tok) (tok_literal tok) = Raise e
               /\ r = Some (Raised e))).
Proof.
  induction tokens as [|[[d l] lit] rest IH]; intros text r H; simpl in H.
  - inversion H; subst. exists [], []. split; [constructor|].
    split; [reflexivity|]. split; [constructor|]. left. auto.
  - destruct (Codec.pack_token_word dw lw tw d l lit) as [w|e] eqn:E.
    + destruct (packed_word_line dw lw tw (d, l, lit) w E)
        as (line & Hf & Hv & Hu & Hlen).
      rewrite Hf in H.
      destruct (token_lines dw lw tw rest) as [text' r'] eqn:E'.
      inversion H; subst text r.
      destruct (IH text' r' eq_refl) as (pre & words & Hp & Hvs & Hls & Hr).
      exists ((d, l, lit) :: pre), (w :: words).
      split; [constructor; assumption|].
      rewrite lines_line by assumption. simpl.
      split; [now rewrite Hv, Hvs|].
      split; [intros H1; constructor; auto|].
      destruct Hr as [[-> ->] | (tok & post & e & -> & He & ->)].
      * left. auto.
      * right. exists tok, post, e. auto.
    + inversion H; subst. exists [], []. split; [constructor|].
      split; [reflexivity|]. split; [constructor|].
      right. exists (d, l, lit), rest, e. auto.
Qed.


(** ** The byte lines and the counts *)

Lemma byte_line b :
  Hex.value (Hex.format_0X 2 (Py.int_of_byte b)) = Some (Py.int_of_byte b)
  /\ Hex.unbroken (Hex.format_0X 2 (Py.int_of_byte b))
  /\ String.length (Hex.format_0X 2 (Py.int_of_byte b)) = 2%nat.
Proof.
  pose proof (EncoderProps.int_of_byte_range b) as Hb.
  assert (Hv := format_value 2 (Py.int_of_byte b) ltac:(lia)).
  split; [exact Hv|]. split; [exact (value_unbroken _ _ _ Hv)|].
  apply format_length; [|lia]. change (16 ^ Z.of_nat 2) with 256. lia.
Qed.

Lemma byte_lines_spec expected :
  map Hex.value (Hex.lines (byte_lines expected))
  = map (fun b => Some (Py.int_of_byte b)) expected
  /\ Forall (fun line => String.length line = 2%nat)
            (Hex.lines (byte_lines expected)).
Proof.
  induction expected as [|b rest [IH1 IH2]]; simpl.
  - split; [reflexivity | constructor].
  - destruct (byte_line b) as (Hv & Hu & Hl).
    rewrite lines_line by assumption. simpl. rewrite Hv, IH1.
    split; [reflexivity | constructor; assumption].
Qed.

Lemma count_line v :
  0 <= v ->
  Hex.value (Hex.format_0X 8 v) = Some v
  /\ Hex.unbroken (Hex.format_0X 8 v)
  /\ (v < 2 ^ 32 -> String.length (Hex.format_0X 8 v) = 8%nat).
Proof.
  intros Hv0. assert (Hv := format_value 8 v Hv0).
  split; [exact Hv|]. split; [exact (value_unbroken _ _ _ Hv)|].
  intros H. apply format_length; [|lia].
  change (16 ^ Z.of_nat 8) with (2 ^ 32). lia.
Qed.

(** ** The three files *)

Lemma write_success tokens expected dw lw tw out_dir files :
  snd (write_mem_files tokens expected dw lw tw out_dir files) = None ->
  exists text,
    token_lines dw lw tw tokens = (text, None)
    /\ fst (write_mem_files tokens expected dw lw tw out_dir files)
       = write_file (meta_path out_dir) (meta_lines tokens expected)
           (write_file (expected_path out_dir) (byte_lines expected)
              (write_file (tokens_path out_dir) text files)).
Proof.
  unfold write_mem_files.
  destruct (token_lines dw lw tw tokens) as [text [e|]]; simpl;
    [discriminate|].
  intros _. exists text. auto.
Qed.


(** X17 (tokens.mem).  When [write_mem_files] returns, every token was
    packed and [tokens.mem] holds one line per token, in order, whose
    hexadecimal value is the packed word; for [token_w >= 1] every line has
    exactly [(token_w + 3) // 4] digits. *)
Theorem tokens_mem_holds_the_words tokens expected dw lw tw out_dir files :
  snd (write_mem_files tokens expected dw lw tw out_dir files) = None ->
  exists words text,
    Forall2 (packs dw lw tw) tokens words
    /\ fst (write_mem_files tokens expected dw lw tw out_dir files)
         (tokens_path out_dir) = Some text
    /\ map Hex.value (Hex.lines text) = map Some words
    /\ (1 <= tw ->
        Forall (fun line => String.length line
                            = Z.to_nat (hex_token_digits tw))
               (Hex.lines text)).
Proof.
  intros H. destruct (write_success _ _ _ _ _ _ _ H) as (text & Ht & ->).
  destruct (token_lines_inv dw lw tw tokens text None Ht)
    as (pre & words & Hp & Hv & Hl & [[_ ->] | (tok & post & e & _ & _ & He)]);
    [|discriminate He].
  destruct (paths_distinct out_dir) as (H1 & H2 & _).
  exists words, text. split; [exact Hp|]. split; [|split; assumption].
  rewrite !write_file_other by assumption. apply write_file_same.
Qed.

Lemma tokens_mem_holds_the_words_witness :
  exists words text,
    Forall2 (packs 4 4 16) [(0, 0, 65); (1, 1, 66)] words
    /\ fst (write_mem_files [(0, 0, 65); (1, 1, 66)] ["A"; "A"; "B"]%byte
              4 4 16 "." (fun _ => None))
         (tokens_path ".") = Some text
    /\ map Hex.value (Hex.lines text) = map Some words.
Proof.
  destruct (tokens_mem_holds_the_words [(0, 0, 65); (1, 1, 66)]
              ["A"; "A"; "B"]%byte 4 4 16 "." (fun _ => None))
    as (words & text & H1 & H2 & H3 & _); [reflexivity|].
  exists words, text. auto.
Defined.

(** X18 (expected.mem).  When [write_mem_files] returns, [expected.mem]
    holds one line of exactly two hexadecimal digits per byte of
    [expected], in order, whose value is the byte. *)
Theorem expected_mem_holds_the_bytes tokens expected dw lw tw out_dir files :
  snd (write_mem_files tokens expected dw lw tw out_dir files) = None ->
  exists text,
    fst (write_mem_files tokens expected dw lw tw out_dir files)
      (expected_path out_dir) = Some text
    /\ map Hex.value (Hex.lines text)
       = map (fun b => Some (Py.int_of_byte b)) expected
    /\ Forall (fun line => String.length line = 2%nat) (Hex.lines text).
Proof.
  intros H. destruct (write_success _ _ _ _ _ _ _ H) as (text & _ & ->).
  destruct (paths_distinct out_dir) as (_ & _ & H3).
  exists (byte_lines expected). split; [|apply byte_lines_spec].
  rewrite write_file_other by assumption. apply write_file_same.
Qed.

Lemma expected_mem_holds_the_bytes_witness :
  exists text,
    fst (write_mem_files [(0, 0, 65); (1, 1, 66)] ["A"; "A"; "B"]%byte
           4 4 16 "." (fun _ => None))
      (expected_path ".") = Some text
    /\ map Hex.value (Hex.lines text)
       = map (fun b => Some (Py.int_of_byte b)) ["A"; "A"; "B"]%byte
    /\ Forall (fun line => String.length line = 2%nat) (Hex.lines text).
Proof.
  apply (expected_mem_holds_the_bytes [(0, 0, 65); (1, 1, 66)]
           ["A"; "A"; "B"]%byte 4 4 16 "." (fun _ => None)).
  reflexivity.
Defined.

(** X19 (meta.mem).  When [write_mem_files] returns, [meta.mem] holds two
    lines, whose values are [len(tokens)] and [len(expected)]; a count
    below [2^32] is printed on exactly eight digits. *)
Theorem meta_mem_holds_the_counts tokens expected dw lw tw out_dir files :
  snd (write_mem_files tokens expected dw lw tw out_dir files) = None ->
  exists text line1 line2,
    fst (write_mem_files tokens expected dw lw tw out_dir files)
      (meta_path out_dir) = Some text
    /\ Hex.lines text = [line1; line2]
    /\ Hex.value line1 = Some (Py.len tokens)
    /\ Hex.value line2 = Some (Py.len expected)
    /\ (Py.len tokens < 2 ^ 32 -> String.length line1 = 8%nat)
    /\ (Py.len expected < 2 ^ 32 -> String.length line2 = 8%nat).
Proof.
  intros H. destruct (write_success _ _ _ _ _ _ _ H) as (text & _ & ->).
  destruct (count_line (Py.len tokens) (DecoderFacts.len_nonneg tokens))
    as (Hv1 & Hu1 & Hl1).
  destruct (count_line (Py.len expected) (DecoderFacts.len_nonneg expected))
    as (Hv2 & Hu2 & Hl2).
  exists (meta_lines tokens expected),
    (Hex.format_0X 8 (Py.len tokens)), (Hex.format_0X 8 (Py.len expected)).
  split; [apply write_file_same|].
  split; [|auto].
  unfold meta_lines. rewrite append_assoc. simpl.
  rewrite lines_line by assumption.
  replace (Hex.format_0X 8 (Py.len expected) ++ String Hex.newline "")%string
    with (Hex.format_0X 8 (Py.len expected)
          ++ String Hex.newline EmptyString)%string by reflexivity.
  rewrite lines_line by assumption. reflexivity.
Qed.

Lemma meta_mem_holds_the_counts_witness :
  exists text line1 line2,
    fst (write_mem_files [(0, 0, 65); (1, 1, 66)] ["A"; "A"; "B"]%byte
           4 4 16 "." (fun _ => None))
      (meta_path ".") = Some text
    /\ Hex.lines text = [line1; line2]
    /\ Hex.value line1 = Some 2
    /\ Hex.value line2 = Some 3.
Proof.
  destruct (meta_mem_holds_the_counts [(0, 0, 65); (1, 1, 66)]
              ["A"; "A"; "B"]%byte 4 4 16 "." (fun _ => None))
    as (text & l1 & l2 & H1 & H2 & H3 & H4 & _); [reflexivity|].
  exists text, l1, l2. auto.
Defined.





End WriterFacts.

(** * The whole script *)

Module ScriptFacts.
Import Encoder Decoder Writer Script.
Import EncoderFacts EncoderProps DecoderFacts CodecFacts WriterFacts.

(** The bounds of a token emitted at position [i]. *)
Lemma emit_bounds data window_size max_length i tok i' :
  0 <= i < n data ->
  emit data window_size max_length i = Some (tok, i') ->
  0 <= tok_distance tok <= Z.max 0 window_size
  /\ 0 <= tok_length tok <= Z.max 0 max_length
  /\ 0 <= tok_literal tok <= 255
  /\ tok_distance tok <= Z.max 0 (n data - 2).
Proof.
  intros Hi H. pose proof (int_of_byte_range) as Hb.
  destruct (emit_cases data window_size max_length i tok i' ltac:(lia) H)
    as [[-> ->] | (d & l & -> & -> & Hd & Hdi & Hl & Hm & Hn & _)];
    unfold tok_length, tok_distance, tok_literal; simpl;
    repeat split; try apply Hb; lia.
Qed.

Lemma compress_bounds data window_size max_length tokens :
  compress data window_size max_length = Some tokens ->
  Forall (fun tok =>
            0 <= tok_distance tok <= Z.max 0 window_size
            /\ 0 <= tok_length tok <= Z.max 0 max_length
            /\ 0 <= tok_literal tok <= 255
            /\ tok_distance tok <= Z.max 0 (n data - 2)) tokens.
Proof.
  intros E.
  apply (compress_loop_Forall data window_size max_length) with (3 := E);
    [|lia].
  apply emit_bounds.
Qed.

Lemma packs_in_range dw lw tw tok :
  0 <= dw -> 0 <= lw -> 0 <= tw ->
  tok_distance tok < 2 ^ dw -> tok_length tok < 2 ^ lw ->
  0 <= tok_literal tok <= 255 ->
  exists word, packs dw lw tw tok word.
Proof.
  intros Hdw Hlw Htw Hd Hl Hlit. unfold packs.
  rewrite pack_unfold by assumption.
  destruct (Z.geb_spec (tok_distance tok) (2 ^ dw)); [lia|].
  destruct (Z.geb_spec (tok_length tok) (2 ^ lw)); [lia|].
  destruct (Z.ltb_spec (tok_literal tok) 0); [lia|].
  destruct (Z.gtb_spec (tok_literal tok) 255); [lia|].
  eexists. reflexivity.
Qed.



(** ** The decoder without a window *)

Lemma produced_consumed tokens :
  Forall (fun tok => 0 <= tok_length tok) tokens ->
  produced tokens = consumed tokens.
Proof. induction 1 as [|tok rest Ht _ IH]; simpl; lia. Qed.

(** X26 (round trip without a window).  For every input and every
    configuration of the encoder, [decompress_stream] with
    [window_size = 0], which never cuts its history, returns the input. *)
Theorem round_trip_with_zero_window data window_size max_length :
  exists tokens,
    compress data window_size max_length = Some tokens
    /\ decompress_stream tokens 0 = Ok data.
Proof.
  destruct (compress_loop_total data window_size max_length (length data) 0)
    as [toks E]; [unfold n, Py.len; lia|].
  exists toks. split; [exact E|].
  pose proof (len_nonneg data) as Hn.
  set (W := Z.max 1 (Py.len data)).
  assert (HW : 1 <= W) by (unfold W; lia).
  assert (Hfit : window_size <= W \/ n data <= W + 2)
    by (right; unfold n, W; lia).
  destruct (GoldenModel.decode_compress_loop data window_size max_length W
              HW Hfit (length data) 0 toks init)
    as (st' & Hr & _ & _ & Hx);
    [unfold n; lia | exact E | reflexivity | reflexivity |].
  assert (Hp : produced toks = Py.len data).
  { rewrite produced_consumed.
    - rewrite (compress_loop_consumes data window_size max_length
                 (length data) 0 toks); [unfold n; lia | unfold n; lia | exact E].
    - apply (compress_loop_Forall data window_size max_length
               (fun tok => 0 <= tok_length tok)) with (3 := E); [|lia].
      intros i tok i' Hi He.
      exact (proj1 (proj1 (emit_shape data window_size max_length
                             i tok i' Hi He))). }
  destruct (DecoderProps.run_wide W toks init) as [Heq _];
    [simpl; unfold W; lia|].
  unfold decompress_stream. rewrite <- Heq, Hr. cbn [bind].
  rewrite (Hx ltac:(unfold n, W; lia) eq_refl).
  now rewrite GoldenModel.bytes_of_ints.
Qed.


(** ** The main block *)

Lemma list_eqb_refl (bs : list byte) :
  (if list_eq_dec Byte.byte_eq_dec bs bs then true else false) = true.
Proof. destruct (list_eq_dec Byte.byte_eq_dec bs bs); congruence. Qed.

(** The tokens of the main block pack, but for a distance of 16. *)
Lemma main_tokens_pack input tokens :
  compress input WINDOW MAX_LEN = Some tokens ->
  Forall (fun tok =>
            (exists word, packs DIST_WIDTH LEN_WIDTH TOKEN_W tok word)
            \/ (tok_distance tok = 16
                /\ Codec.pack_token_word DIST_WIDTH LEN_WIDTH TOKEN_W
                     (tok_distance tok) (tok_length tok) (tok_literal tok)
                   = Raise (DistTooWide 16)
                /\ 18 <= n input)) tokens.
Proof.
  intros E.
  apply Forall_impl with (2 := compress_bounds input WINDOW MAX_LEN tokens E).
  intros tok (Hd & Hl & Hlit & Hn).
  unfold TOKEN_W, WINDOW, MAX_LEN, DIST_WIDTH, LEN_WIDTH in *.
  destruct (Z.eq_dec (tok_distance tok) 16) as [H16|Hne].
  - right. split; [exact H16|]. split; [|lia].
    rewrite pack_unfold by lia. rewrite H16. reflexivity.
  - left. apply packs_in_range; lia.
Qed.

Lemma main_write_outcome input tokens expected files :
  compress input WINDOW MAX_LEN = Some tokens ->
  snd (write_mem_files tokens expected DIST_WIDTH LEN_WIDTH TOKEN_W "." files)
  = None
  \/ (snd (write_mem_files tokens expected DIST_WIDTH LEN_WIDTH TOKEN_W "."
             files) = Some (Raised (DistTooWide 16))
      /\ 18 <= n input).
Proof.
  intros E. pose proof (main_tokens_pack input tokens E) as Hp.
  unfold write_mem_files.
  destruct (token_lines DIST_WIDTH LEN_WIDTH TOKEN_W tokens) as [text r] eqn:Ht.
  destruct (token_lines_inv _ _ _ _ _ _ Ht)
    as (pre & words & _ & _ & _ & [[-> _] | (tok & post & e & -> & He & ->)]).
  - left. reflexivity.
  - right. simpl.
    rewrite Forall_forall in Hp.
    destruct (Hp tok) as [[word Hw] | (_ & H16 & Hn)].
    + apply in_or_app. right. left. reflexivity.
    + unfold packs in Hw. congruence.
    + split; [congruence | exact Hn].
Qed.

Lemma main_decodes input tokens :
  compress input WINDOW MAX_LEN = Some tokens ->
  exists bs,
    decompress_stream tokens WINDOW = Ok bs
    /\ (n input <= 18 -> bs = input).
Proof.
  intros E. unfold compress in E.
  destruct (GoldenModel.decode_compress_loop input WINDOW MAX_LEN WINDOW
              ltac:(unfold WINDOW; lia) (or_introl (Z.le_refl _))
              (length input) 0 tokens init)
    as (st' & Hr & Hlen & HQ & Hx);
    [pose proof (len_nonneg input); unfold n; lia | exact E | reflexivity
     | reflexivity |].
  unfold decompress_stream. rewrite Hr. cbn [bind].
  destruct (GoldenModel.bytes_drawn_from input (out_full st')
              (HQ (Forall_nil _))) as (bs & Hbs & _).
  exists bs. rewrite Hbs. split; [reflexivity|].
  intros Hshort. rewrite (Hx ltac:(unfold WINDOW; lia) eq_refl) in Hbs.
  rewrite GoldenModel.bytes_of_ints in Hbs. congruence.
Qed.

(** X22 (how the main block can fail).  For every input, the main block
    either runs to its end, or stops on its assertion (the decoder did not
    return the input), or stops in [write_mem_files] on a distance of 16,
    which does not fit the four bits of [DIST_WIDTH]; the decoder itself
    raises nothing. *)
Theorem main_failure_modes input w :
  snd (main_with input w) = None
  \/ snd (main_with input w) = Some AssertionFailed
  \/ snd (main_with input w) = Some (Raised (DistTooWide 16)).
Proof.
  unfold main_with.
  destruct (compress_loop_total input WINDOW MAX_LEN (length input) 0)
    as [toks E]; [unfold n, Py.len; lia|].
  change (compress input WINDOW MAX_LEN = Some toks) in E. rewrite E.
  destruct (main_decodes input toks E) as (bs & -> & _).
  destruct (list_eq_dec Byte.byte_eq_dec bs input) as [->|Hne]; simpl;
    [|right; left; reflexivity].
  destruct (main_write_outcome input toks input (files w) E) as [H | [H _]];
    destruct (write_mem_files toks input DIST_WIDTH LEN_WIDTH TOKEN_W "."
                (files w)) as [files' r]; simpl in H; subst r; simpl; auto.
Qed.

(** X23 (short inputs).  On an input of at most 17 bytes the main block
    runs to its end: the assertion holds, every token packs, the files are
    those [write_mem_files] writes for the tokens and the input, and the
    three lines are printed with the number of tokens and of bytes. *)
Theorem main_succeeds_on_short_input input w :
  Py.len input <= 17 ->
  exists tokens,
    compress input WINDOW MAX_LEN = Some tokens
    /\ snd (main_with input w) = None
    /\ files (fst (main_with input w))
       = fst (write_mem_files tokens input DIST_WIDTH LEN_WIDTH TOKEN_W "."
                (files w))
    /\ stdout (fst (main_with input w))
       = stdout w
         ++ ["Generated: tokens.mem, expected.mem, meta.mem"%string;
             ("NUM_TOKENS = " ++ decimal (length tokens))%string;
             ("EXP_LEN    = " ++ decimal (length input))%string].
Proof.
  intros Hshort.
  destruct (compress_loop_total input WINDOW MAX_LEN (length input) 0)
    as [toks E]; [unfold n, Py.len; lia|].
  change (compress input WINDOW MAX_LEN = Some toks) in E.
  exists toks. split; [exact E|].
  unfold main_with. rewrite E.
  destruct (main_decodes input toks E) as (bs & -> & Hbs).
  rewrite (Hbs ltac:(unfold n; lia)), list_eqb_refl. simpl.
  destruct (main_write_outcome input toks input (files w) E)
    as [H | [_ Hn]]; [|unfold n in Hn; lia].
  destruct (write_mem_files toks input DIST_WIDTH LEN_WIDTH TOKEN_W "."
              (files w)) as [files' r]; simpl in H; subst r.
  simpl. auto.
Qed.

Lemma main_succeeds_on_short_input_witness :
  exists tokens,
    compress ["1"; "0"; "1"; "0"; "A"; "B"; "A"; "B"; "X"]%byte WINDOW MAX_LEN
    = Some tokens
    /\ snd (main (mkWorld (fun _ => None) [])) = None.
Proof.
  destruct (main_succeeds_on_short_input
              ["1"; "0"; "1"; "0"; "A"; "B"; "A"; "B"; "X"]%byte
              (mkWorld (fun _ => None) []))
    as (tokens & H1 & H2 & _); [vm_compute; discriminate|].
  exists tokens. split; [exact H1 | exact H2].
Defined.

End ScriptFacts.
